(** * Field descriptors of package structs (field.go)

    A shallow embedding of [field.go] over a model of the fragment of Go's
    value universe and of package [reflect] that the file relies on.

    - Types: [bool], [int], [string], [func()], [interface{}], pointers,
      structs and defined (named) types over these.
    - Storage: a heap of allocated variables; a location is an allocation
      together with a path of field indices into it.
    - [reflect.Value]: a type, the data (a detached copy or a reference to
      live storage) and the two read-only marks of package reflect.

    A method [m] of a Go type [T] is written [T_m].  An [int] is a [Z];
    no arithmetic is done on it.

    The spec calls a handle addressable, or settable, when it refers to
    the original storage and can be mutated: that is [Value_CanSet].
    [Value_CanAddr] alone says that the handle refers to storage. *)

From Stdlib Require Import ZArith Bool.
From stdpp Require Import base list strings option.

Open Scope string_scope.
Set Warnings "-register-all".

(** ** Types *)

(** [reflect.Kind], restricted to the kinds of this fragment. *)
Inductive Kind : Type :=
  | Invalid | Bool | Int | String_ | Func | Interface | Ptr | Struct.

Definition Kind_eqb (a b : Kind) : bool :=
  match a, b with
  | Invalid, Invalid | Bool, Bool | Int, Int | String_, String_
  | Func, Func | Interface, Interface | Ptr, Ptr | Struct, Struct => true
  | _, _ => false
  end.

(** A struct tag in parsed form: the [key:"value"] pairs in the order in
    which they are written. *)
Definition StructTag : Type := list (string * string).

(** Types, and [reflect.StructField] (without [Index] and [Offset]).
    [TNamed n u] is the defined type [type n u]. *)
Inductive rtype : Type :=
  | TBool
  | TInt
  | TString
  | TFunc
  | TEface
  | TPtr (elem : rtype)
  | TStruct (fields : list StructField)
  | TNamed (name : string) (under : rtype)
with StructField : Type :=
  | mkStructField (Name PkgPath : string) (Typ : rtype) (Tag : StructTag)
                  (Anonymous : bool).

Definition sfName (f : StructField) : string :=
  match f with mkStructField n _ _ _ _ => n end.
Definition sfPkgPath (f : StructField) : string :=
  match f with mkStructField _ p _ _ _ => p end.
Definition sfType (f : StructField) : rtype :=
  match f with mkStructField _ _ t _ _ => t end.
Definition sfTag (f : StructField) : StructTag :=
  match f with mkStructField _ _ _ g _ => g end.
Definition sfAnonymous (f : StructField) : bool :=
  match f with mkStructField _ _ _ _ a => a end.

Fixpoint tag_eqb (a b : StructTag) : bool :=
  match a, b with
  | [], [] => true
  | (k1, v1) :: a', (k2, v2) :: b' =>
      String.eqb k1 k2 && String.eqb v1 v2 && tag_eqb a' b'
  | _, _ => false
  end.

(** Type identity. *)
Fixpoint rtype_eqb (a b : rtype) {struct a} : bool :=
  match a, b with
  | TBool, TBool | TInt, TInt | TString, TString
  | TFunc, TFunc | TEface, TEface => true
  | TPtr x, TPtr y => rtype_eqb x y
  | TStruct fa, TStruct fb =>
      (fix go (l1 l2 : list StructField) {struct l1} : bool :=
         match l1, l2 with
         | [], [] => true
         | x :: l1', y :: l2' => sfield_eqb x y && go l1' l2'
         | _, _ => false
         end) fa fb
  | TNamed n x, TNamed m y => String.eqb n m && rtype_eqb x y
  | _, _ => false
  end
with sfield_eqb (x y : StructField) {struct x} : bool :=
  match x, y with
  | mkStructField n p t g a, mkStructField n' p' t' g' a' =>
      String.eqb n n' && String.eqb p p' && rtype_eqb t t'
      && tag_eqb g g' && Bool.eqb a a'
  end.

(** The underlying type: a defined type stands for the type it was
    declared from. *)
Fixpoint underlying (t : rtype) : rtype :=
  match t with
  | TNamed _ u => underlying u
  | _ => t
  end.

Definition kind_of (t : rtype) : Kind :=
  match underlying t with
  | TBool => Bool
  | TInt => Int
  | TString => String_
  | TFunc => Func
  | TEface => Interface
  | TPtr _ => Ptr
  | TStruct _ => Struct
  | TNamed _ _ => Invalid
  end.

(** [hasName]: the predeclared types and the defined types have a name,
    type literals have none. *)
Definition hasName (t : rtype) : bool :=
  match t with
  | TBool | TInt | TString | TNamed _ _ => true
  | _ => false
  end.

Definition struct_fields (t : rtype) : list StructField :=
  match underlying t with
  | TStruct fs => fs
  | _ => []
  end.

Definition ptr_elem (t : rtype) : option rtype :=
  match underlying t with
  | TPtr e => Some e
  | _ => None
  end.

(** [directlyAssignable T V] and [Type.AssignableTo] of package reflect.  With
    tags compared, two types have identical underlying types when the
    underlying types are the same type.  Every interface type of the
    fragment is empty, so every type implements it. *)
Definition directlyAssignable (T V : rtype) : bool :=
  if rtype_eqb T V then true
  else if (hasName T && hasName V) || negb (Kind_eqb (kind_of T) (kind_of V))
       then false
       else rtype_eqb (underlying T) (underlying V).

Definition implements (T V : rtype) : bool :=
  Kind_eqb (kind_of T) Interface.

Definition Type_AssignableTo (V T : rtype) : bool :=
  directlyAssignable T V || implements T V.

(** [StructTag.Get]: the value of the first pair whose key is [key], the
    empty string when there is none.  A written key is never empty, so the
    empty key finds nothing. *)
Fixpoint StructTag_Lookup (tag : StructTag) (key : string) : option string :=
  match tag with
  | [] => None
  | (k, v) :: tag' =>
      if String.eqb k "" then StructTag_Lookup tag' key
      else if String.eqb key k then Some v else StructTag_Lookup tag' key
  end.

Definition StructTag_Get (tag : StructTag) (key : string) : string :=
  match StructTag_Lookup tag key with
  | Some v => v
  | None => ""
  end.

(** ** Values and storage *)

(** A location: an allocated variable and the path of field indices that
    leads from it to the sub-object. *)
Definition addr : Type := nat * list nat.

Definition addr_eqb (a b : addr) : bool :=
  Nat.eqb a.1 b.1 && bool_decide (a.2 = b.2).

(** Values.  A func value is nil or some function, written by a number; a
    pointer is nil or a location; an interface value is nil or a dynamic
    type with a value of that type. *)
Inductive val : Type :=
  | VBool (b : bool)
  | VInt (n : Z)
  | VString (s : string)
  | VFunc (code : option nat)
  | VPtr (target : option addr)
  | VEface (dyn : option (rtype * val))
  | VStruct (fs : list val).

(** The contents of [interface{}] variables and parameters. *)
Definition any : Type := option (rtype * val).

(** [==] on the comparable basic kinds. *)
Definition basic_eqb (x y : val) : bool :=
  match x, y with
  | VBool a, VBool b => Bool.eqb a b
  | VInt a, VInt b => Z.eqb a b
  | VString a, VString b => String.eqb a b
  | _, _ => false
  end.

(** The zero value of a type. *)
Fixpoint zero_val (t : rtype) : val :=
  match t with
  | TBool => VBool false
  | TInt => VInt 0
  | TString => VString ""
  | TFunc => VFunc None
  | TEface => VEface None
  | TPtr _ => VPtr None
  | TStruct fs =>
      VStruct ((fix go (l : list StructField) : list val :=
                  match l with
                  | [] => []
                  | f :: l' => zero_field f :: go l'
                  end) fs)
  | TNamed _ u => zero_val u
  end
with zero_field (f : StructField) : val :=
  match f with
  | mkStructField _ _ t _ _ => zero_val t
  end.

(** The heap: the allocated variables, by number. *)
Abbreviation heap := (list val).

Fixpoint get_path (v : val) (p : list nat) : option val :=
  match p with
  | [] => Some v
  | i :: p' =>
      match v with
      | VStruct fs =>
          match fs !! i with
          | Some w => get_path w p'
          | None => None
          end
      | _ => None
      end
  end.

Fixpoint set_path (v : val) (p : list nat) (new : val) : option val :=
  match p with
  | [] => Some new
  | i :: p' =>
      match v with
      | VStruct fs =>
          match fs !! i with
          | Some w =>
              match set_path w p' new with
              | Some w' => Some (VStruct (<[i := w']> fs))
              | None => None
              end
          | None => None
          end
      | _ => None
      end
  end.

Definition load (h : heap) (a : addr) : option val :=
  match h !! a.1 with
  | Some v => get_path v a.2
  | None => None
  end.

Definition store (h : heap) (a : addr) (new : val) : option heap :=
  match h !! a.1 with
  | Some v =>
      match set_path v a.2 new with
      | Some v' => Some (<[a.1 := v']> h)
      | None => None
      end
  | None => None
  end.

(** ** Outcomes of a call *)

(** The run-time panics of package reflect that the code can meet, and the
    panic of [structVal]. *)
Inductive panic : Type :=
  | ZeroValueCall (method : string)
  | UnexportedValue
  | UnaddressableValue
  | KindMismatch (method : string)
  | IndexOutOfRange
  | ValueNotAssignable
  | NotStruct.

(** A call returns, panics, or leaves the model: [Beyond] marks a store
    that no Go program reaches (a dangling location, a value laid out
    unlike its type), the one feature left out of the fragment (the
    promotion of names through embedded fields) and a bounded recursion
    that has used up its fuel. *)
Inductive outcome (A : Type) : Type :=
  | Ret (a : A)
  | Panic (p : panic)
  | Beyond.
Arguments Ret {A} a.
Arguments Panic {A} p.
Arguments Beyond {A}.

Definition bind {A B : Type} (c : outcome A) (k : A -> outcome B) : outcome B :=
  match c with
  | Ret a => k a
  | Panic p => Panic p
  | Beyond => Beyond
  end.

Notation "x <- c ;; k" := (bind c (fun x => k))
  (at level 100, c at next level, right associativity).

(** ** reflect.Value *)

Inductive data : Type :=
  | Imm (x : val)
  | Ref (a : addr).

(** [NoValue] is the zero Value.  A valid Value is addressable exactly
    when its data is a reference to storage ([flagAddr]); [stickyRO] and
    [embedRO] are [flagStickyRO] and [flagEmbedRO]. *)
Inductive Value : Type :=
  | NoValue
  | Val (t : rtype) (d : data) (stickyRO embedRO : bool).

Definition flagRO (v : Value) : bool :=
  match v with
  | NoValue => false
  | Val _ _ s e => s || e
  end.

Definition Value_IsValid (v : Value) : bool :=
  match v with NoValue => false | Val _ _ _ _ => true end.

Definition Value_Kind (v : Value) : Kind :=
  match v with
  | NoValue => Invalid
  | Val t _ _ _ => kind_of t
  end.

Definition Value_Type (v : Value) : outcome rtype :=
  match v with
  | NoValue => Panic (ZeroValueCall "Type")
  | Val t _ _ _ => Ret t
  end.

Definition Value_CanAddr (v : Value) : bool :=
  match v with
  | Val _ (Ref _) _ _ => true
  | _ => false
  end.

Definition Value_CanSet (v : Value) : bool :=
  Value_CanAddr v && negb (flagRO v).

(** The value a handle holds at the moment. *)
Definition contents (h : heap) (d : data) : outcome val :=
  match d with
  | Imm x => Ret x
  | Ref a => match load h a with Some x => Ret x | None => Beyond end
  end.

Definition ValueOf (i : any) : Value :=
  match i with
  | None => NoValue
  | Some (t, x) => Val t (Imm x) false false
  end.

Definition Zero (t : rtype) : Value := Val t (Imm (zero_val t)) false false.

Definition Value_Addr (v : Value) : outcome Value :=
  match v with
  | Val t (Ref a) s e => Ret (Val (TPtr t) (Imm (VPtr (Some a))) s e)
  | _ => Panic UnaddressableValue
  end.

(** [Value.Interface]: the value as an [interface{}]; for a Value of kind
    Interface, the element inside the interface. *)
Definition Value_Interface (h : heap) (v : Value) : outcome any :=
  match v with
  | NoValue => Panic (ZeroValueCall "Interface")
  | Val t d s e =>
      if s || e then Panic UnexportedValue
      else
        x <- contents h d ;;
        if Kind_eqb (kind_of t) Interface then
          match x with
          | VEface dyn => Ret dyn
          | _ => Beyond
          end
        else Ret (Some (t, x))
  end.

Definition Value_Elem (h : heap) (v : Value) : outcome Value :=
  match v with
  | NoValue => Panic (KindMismatch "Elem")
  | Val t d s e =>
      match kind_of t with
      | Interface =>
          x <- contents h d ;;
          match x with
          | VEface None => Ret NoValue
          | VEface (Some (dt, dx)) => Ret (Val dt (Imm dx) (s || e) false)
          | _ => Beyond
          end
      | Ptr =>
          x <- contents h d ;;
          match x, ptr_elem t with
          | VPtr None, Some _ => Ret NoValue
          | VPtr (Some a), Some et => Ret (Val et (Ref a) s e)
          | _, _ => Beyond
          end
      | _ => Panic (KindMismatch "Elem")
      end
  end.

Definition Type_NumField (t : rtype) : outcome nat :=
  match kind_of t with
  | Struct => Ret (length (struct_fields t))
  | _ => Panic (KindMismatch "NumField")
  end.

(** [Value.Field]: the i-th field of a struct.  The field shares the
    struct's storage, inherits its sticky read-only mark and takes a mark
    of its own when it is not exported. *)
Definition Value_Field (v : Value) (i : nat) : outcome Value :=
  match v with
  | NoValue => Panic (KindMismatch "Field")
  | Val t d s e =>
      match kind_of t with
      | Struct =>
          match struct_fields t !! i with
          | None => Panic IndexOutOfRange
          | Some f =>
              let exported := String.eqb (sfPkgPath f) "" in
              let s' := s || (negb exported && negb (sfAnonymous f)) in
              let e' := negb exported && sfAnonymous f in
              match d with
              | Ref a => Ret (Val (sfType f) (Ref (a.1, (a.2 ++ [i])%list)) s' e')
              | Imm (VStruct xs) =>
                  match xs !! i with
                  | Some x => Ret (Val (sfType f) (Imm x) s' e')
                  | None => Beyond
                  end
              | Imm _ => Beyond
              end
          end
      | _ => Panic (KindMismatch "Field")
      end
  end.

(** The scan of a struct's own fields for [name]: the first phase of
    [Type.FieldByName]. *)
Fixpoint find_field (fs : list StructField) (name : string) (i : nat)
  : option (nat * StructField) :=
  match fs with
  | [] => None
  | f :: fs' =>
      if String.eqb (sfName f) name then Some (i, f)
      else find_field fs' name (S i)
  end.

Definition hasEmbeds (fs : list StructField) : bool :=
  existsb sfAnonymous fs.

(** [Type.FieldByName]: the field and its index, or not found.  The
    empty name finds nothing.  A name the struct declares itself is found
    by the scan of its own fields; when that fails and the struct has
    embedded fields reflect goes on to search the promoted names, which is
    outside the fragment. *)
Definition Type_FieldByName (t : rtype) (name : string)
  : outcome (option (nat * StructField)) :=
  match kind_of t with
  | Struct =>
      let fs := struct_fields t in
      if String.eqb name "" then Ret None
      else
        match find_field fs name 0 with
        | Some r => Ret (Some r)
        | None => if hasEmbeds fs then Beyond else Ret None
        end
  | _ => Panic (KindMismatch "FieldByName")
  end.

Definition Value_FieldByName (v : Value) (name : string) : outcome Value :=
  match v with
  | NoValue => Panic (KindMismatch "FieldByName")
  | Val t _ _ _ =>
      match kind_of t with
      | Struct =>
          r <- Type_FieldByName t name ;;
          match r with
          | Some (i, _) => Value_Field v i
          | None => Ret NoValue
          end
      | _ => Panic (KindMismatch "FieldByName")
      end
  end.

(** [Value.Set]: [v] must be settable and [x] usable; [x] is converted to
    [v]'s type as an assignment does and written to [v]'s storage. *)
Definition assignTo (h : heap) (x : Value) (dst : rtype) : outcome val :=
  match x with
  | NoValue => Panic (ZeroValueCall "Set")
  | Val xt d _ _ =>
      xv <- contents h d ;;
      if directlyAssignable dst xt then Ret xv
      else if implements dst xt then
        if Kind_eqb (kind_of xt) Interface then
          match xv with
          | VEface dyn => Ret (VEface dyn)
          | _ => Beyond
          end
        else Ret (VEface (Some (xt, xv)))
      else Panic ValueNotAssignable
  end.

Definition Value_Set (h : heap) (v x : Value) : outcome heap :=
  match v with
  | NoValue => Panic (ZeroValueCall "Set")
  | Val t d s e =>
      if s || e then Panic UnexportedValue
      else
        match d with
        | Imm _ => Panic UnaddressableValue
        | Ref a =>
            match x with
            | NoValue => Panic (ZeroValueCall "Set")
            | Val _ _ xs xe =>
                if xs || xe then Panic UnexportedValue
                else
                  new <- assignTo h x t ;;
                  match store h a new with
                  | Some h' => Ret h'
                  | None => Beyond
                  end
            end
        end
  end.

(** ** reflect.DeepEqual *)

(** An entry of the visited map: two locations and a type. *)
Definition visit : Type := addr * addr * rtype.

Definition visit_eqb (a b : visit) : bool :=
  addr_eqb a.1.1 b.1.1 && addr_eqb a.1.2 b.1.2 && rtype_eqb a.2 b.2.

(** reflect orders the two locations before it looks the pair up; here
    the pair is looked up in both orders. *)
Definition seen (visited : list visit) (a1 a2 : addr) (t : rtype) : bool :=
  existsb (visit_eqb (a1, a2, t)) visited
  || existsb (visit_eqb (a2, a1, t)) visited.

(** The loop over the fields of two structs; it stops at the first pair of
    fields that differ. *)
Fixpoint deep_fields
    (cmp : list visit -> option (rtype * val) -> option (rtype * val) ->
           outcome (bool * list visit))
    (visited : list visit) (fs : list StructField) (xs1 xs2 : list val)
  : outcome (bool * list visit) :=
  match fs, xs1, xs2 with
  | [], [], [] => Ret (true, visited)
  | f :: fs', y1 :: xs1', y2 :: xs2' =>
      r <- cmp visited (Some (sfType f, y1)) (Some (sfType f, y2)) ;;
      if r.1 then deep_fields cmp r.2 fs' xs1' xs2' else Ret r
  | _, _, _ => Beyond
  end.

(** [deepValueEqual] on two Values, each given by its type and what it
    holds ([None] for the zero Value).  The visited map is threaded
    through the calls.  It records pairs of pointers; reflect records
    pairs of non-nil interfaces as well, which cannot close a cycle where
    every cycle of the store passes through a pointer.  The recursion is
    bounded by [fuel]; with none left the outcome is [Beyond]. *)
Fixpoint deepValueEqual (h : heap) (fuel : nat) (visited : list visit)
    (v1 v2 : option (rtype * val)) {struct fuel}
  : outcome (bool * list visit) :=
  match fuel with
  | O => Beyond
  | S n =>
      match v1, v2 with
      | Some (t1, x1), Some (t2, x2) =>
          if negb (rtype_eqb t1 t2) then Ret (false, visited)
          else
            match kind_of t1, x1, x2 with
            | Ptr, VPtr (Some a1), VPtr (Some a2) =>
                if seen visited a1 a2 t1 then Ret (true, visited)
                else
                  let visited' := (a1, a2, t1) :: visited in
                  if addr_eqb a1 a2 then Ret (true, visited')
                  else
                    match ptr_elem t1, load h a1, load h a2 with
                    | Some et, Some y1, Some y2 =>
                        deepValueEqual h n visited'
                                       (Some (et, y1)) (Some (et, y2))
                    | _, _, _ => Beyond
                    end
            | Ptr, VPtr None, VPtr None => Ret (true, visited)
            | Ptr, VPtr _, VPtr _ =>
                (* the Elem of the nil pointer is the zero Value *)
                Ret (false, visited)
            | Interface, VEface (Some d1), VEface (Some d2) =>
                deepValueEqual h n visited (Some d1) (Some d2)
            | Interface, VEface None, VEface None => Ret (true, visited)
            | Interface, VEface _, VEface _ => Ret (false, visited)
            | Struct, VStruct xs1, VStruct xs2 =>
                deep_fields (deepValueEqual h n) visited
                            (struct_fields t1) xs1 xs2
            | Func, VFunc None, VFunc None => Ret (true, visited)
            | Func, VFunc _, VFunc _ => Ret (false, visited)
            | Bool, VBool _, VBool _
            | Int, VInt _, VInt _
            | String_, VString _, VString _ =>
                Ret (basic_eqb x1 x2, visited)
            | _, _, _ => Beyond
            end
      | None, None => Ret (true, visited)
      | _, _ => Ret (false, visited)
      end
  end.

Definition DeepEqual (h : heap) (fuel : nat) (x y : any) : outcome bool :=
  match x, y with
  | Some (t1, _), Some (t2, _) =>
      if negb (rtype_eqb t1 t2) then Ret false
      else r <- deepValueEqual h fuel [] x y ;; Ret r.1
  | None, None => Ret true
  | _, _ => Ret false
  end.

(** ** Package structs *)

(** The errors of Set: the two package variables, and the error that
    [fmt.Errorf("can't assign %s to %s", ...)] builds from the two
    types. *)
Inductive error : Type :=
  | errNotExported
  | errNotSettable
  | errCantAssign (offered required : rtype).

(** Field represents a single struct field. *)
Record Field : Type := mkField {
  value : Value;
  field : StructField;
  defaultTag : string
}.

Fixpoint ptr_depth (t : rtype) : nat :=
  match t with
  | TPtr e => S (ptr_depth e)
  | TNamed _ u => ptr_depth u
  | _ => 0
  end.

(** The loop [for v.Kind() == reflect.Ptr { v = v.Elem() }], run for at
    most [n] rounds; a Value whose type has [n] pointers in front needs no
    more. *)
Fixpoint deref_all (h : heap) (n : nat) (v : Value) : outcome Value :=
  if Kind_eqb (Value_Kind v) Ptr then
    match n with
    | O => Beyond
    | S n' => v' <- Value_Elem h v ;; deref_all h n' v'
    end
  else Ret v.

(** Modelled from the spec: [structVal] is not in field.go.  It takes a
    dynamic value that is a structured record or a reference to one,
    follows the references and returns the Value of the record; any other
    value is a contract violation, which aborts the call. *)
Definition structVal (h : heap) (s : any) : outcome Value :=
  let v0 := ValueOf s in
  let n := match v0 with Val t _ _ _ => ptr_depth t | NoValue => 0 end in
  v <- deref_all h n v0 ;;
  if negb (Kind_eqb (Value_Kind v) Struct) then Panic NotStruct
  else Ret v.

(** Modelled from the spec: the loop of [getFields], which is not in
    field.go.  The descriptors of the fields [i], [i+1], ... of the record
    [v], the fields marked with ["-"] under [tagName] left out. *)
Fixpoint getFields_from (v : Value) (tagName : string)
    (fs : list StructField) (i : nat) : outcome (list Field) :=
  match fs with
  | [] => Ret []
  | f :: fs' =>
      if String.eqb (StructTag_Get (sfTag f) tagName) "-" then
        getFields_from v tagName fs' (S i)
      else
        fv <- Value_Field v i ;;
        rest <- getFields_from v tagName fs' (S i) ;;
        Ret (mkField fv f tagName :: rest)
  end.

(** Modelled from the spec: [getFields] is not in field.go.  It takes a
    structured record or a reference to one (anything else aborts the
    call) and enumerates the immediate fields of the record in their
    declared order, each wrapped as a new descriptor that inherits the
    same default tag key; a field whose annotation under that key is
    exactly ["-"] is skipped. *)
Definition getFields (h : heap) (v : Value) (tagName : string)
  : outcome (list Field) :=
  v' <- (if Kind_eqb (Value_Kind v) Ptr then Value_Elem h v else Ret v) ;;
  t <- Value_Type v' ;;
  _ <- Type_NumField t ;;
  getFields_from v' tagName (struct_fields t) 0.

(** *** field.go *)

(** Tag returns the value associated with key in the tag string. *)
Definition Field_Tag (f : Field) (key : string) : string :=
  StructTag_Get (sfTag (field f)) key.

(** Value returns the underlying value of the field. It panics if the
    field is not exported. *)
Definition Field_Value (h : heap) (f : Field) : outcome any :=
  Value_Interface h (value f).

Definition Field_IsEmbedded (f : Field) : bool := sfAnonymous (field f).

Definition Field_IsExported (f : Field) : bool :=
  String.eqb (sfPkgPath (field f)) "".

(** IsZero returns true if the given field has a zero value. *)
Definition Field_IsZero (h : heap) (fuel : nat) (f : Field) : outcome bool :=
  t <- Value_Type (value f) ;;
  zero <- Value_Interface h (Zero t) ;;
  current <- Field_Value h f ;;
  DeepEqual h fuel current zero.

Definition Field_Name (f : Field) : string := sfName (field f).


(** Set sets the field to given value v. *)
Definition Field_Set (h : heap) (f : Field) (val : any)
  : outcome (heap * option error) :=
  if negb (Field_IsExported f) then Ret (h, Some errNotExported)
  else if negb (Value_CanSet (value f)) then Ret (h, Some errNotSettable)
  else
    let value_ := ValueOf val in
    vt <- Value_Type value_ ;;
    ft <- Value_Type (value f) ;;
    if negb (Type_AssignableTo vt ft) then Ret (h, Some (errCantAssign vt ft))
    else
      h' <- Value_Set h (value f) value_ ;;
      Ret (h', None).

(** Zero sets the field to its zero value. *)
Definition Field_Zero (h : heap) (f : Field) : outcome (heap * option error) :=
  t <- Value_Type (value f) ;;
  zero <- Value_Interface h (Zero t) ;;
  Field_Set h f zero.

(** Fields returns a slice of Fields. *)
Definition Field_Fields (h : heap) (f : Field) : outcome (list Field) :=
  getFields h (value f) (defaultTag f).

(** Field returns the field from a nested struct or nil if not found.  The
    descriptor it builds names [field] and [value] only, so its
    [defaultTag] is the zero value of string. *)
Definition Field_Field (h : heap) (f : Field) (name : string)
  : outcome (option Field) :=
  value_ <- (if negb (Kind_eqb (Value_Kind (value f)) Ptr)
             then Value_Addr (value f)
             else Ret (value f)) ;;
  s <- Value_Interface h value_ ;;
  v <- structVal h s ;;
  t <- Value_Type v ;;
  r <- Type_FieldByName t name ;;
  match r with
  | None => Ret None
  | Some (_, fld) =>
      fv <- Value_FieldByName v name ;;
      Ret (Some (mkField fv fld ""))
  end.

(** ** Predicates of the statements *)

(** [has_shape x t]: the value [x] is laid out as a value of type [t].
    The dynamic type inside an interface value is never an interface
    type.  What a pointer points to is not inspected. *)
Fixpoint has_shape (x : val) (t : rtype) {struct x} : bool :=
  match x, underlying t with
  | VBool _, TBool => true
  | VInt _, TInt => true
  | VString _, TString => true
  | VFunc _, TFunc => true
  | VPtr _, TPtr _ => true
  | VEface None, TEface => true
  | VEface (Some (dt, dx)), TEface =>
      negb (Kind_eqb (kind_of dt) Interface) && has_shape dx dt
  | VStruct xs, TStruct fs =>
      (fix go (l : list val) (fs : list StructField) {struct l} : bool :=
         match l, fs with
         | [], [] => true
         | y :: l', f :: fs' => has_shape y (sfType f) && go l' fs'
         | _, _ => false
         end) xs fs
  | _, _ => false
  end.


(** The nesting depth of structs and interfaces in a value. *)
Fixpoint val_depth (x : val) : nat :=
  match x with
  | VEface (Some (_, y)) => S (val_depth y)
  | VStruct xs => S (max_list (map val_depth xs))
  | _ => 0
  end.

(** What the storage of a field of type [ft] holds after a value [x] of
    dynamic type [vt] is assigned to it, and what [Value.Interface] makes
    of a value [x] held at type [t]. *)
Definition stored_form (ft vt : rtype) (x : val) : val :=
  if Kind_eqb (kind_of ft) Interface then VEface (Some (vt, x)) else x.

Definition iface_of (t : rtype) (x : val) : any :=
  match kind_of t, x with
  | Interface, VEface dyn => dyn
  | _, _ => Some (t, x)
  end.

(** [name] names the immediate field [sf], the [i]-th, of the struct type
    [t]. *)
Definition immediate_field (t : rtype) (name : string) (i : nat)
    (sf : StructField) : Prop :=
  kind_of t = Struct /\ name <> "" /\
  find_field (struct_fields t) name 0 = Some (i, sf).

(** The read-only marks of a descriptor's handle agree with its metadata:
    the handle is marked exactly when the field is not exported. *)
Definition consistent (f : Field) : Prop :=
  flagRO (value f) = negb (Field_IsExported f).

(** The marks [Value.Field] gives to the handle of the field [sf] of a
    struct that carries no mark. *)
Definition field_sticky (sf : StructField) : bool :=
  negb (String.eqb (sfPkgPath sf) "") && negb (sfAnonymous sf).
Definition field_embed (sf : StructField) : bool :=
  negb (String.eqb (sfPkgPath sf) "") && sfAnonymous sf.

(** The record a descriptor stands for and where it is stored, when the
    handle is readable and holds either the record itself in addressable
    storage or a pointer to the record. *)
Definition record_at (h : heap) (v : Value) : option (rtype * addr) :=
  match v with
  | Val t d false false =>
      match kind_of t, d with
      | Struct, Ref a => Some (t, a)
      | Ptr, _ =>
          match contents h d, ptr_elem t with
          | Ret (VPtr (Some b)), Some et =>
              if Kind_eqb (kind_of et) Struct then Some (et, b) else None
          | _, _ => None
          end
      | _, _ => None
      end
  | _ => None
  end.

(** The number of pointers that [structVal] can follow from a Value. *)
Definition depth_of (v : Value) : nat :=
  match v with
  | NoValue => 0
  | Val t _ _ _ => ptr_depth t
  end.

(** The fields that an enumeration under the tag key [tagName] keeps. *)
Definition keep (tagName : string) (f : StructField) : bool :=
  negb (String.eqb (StructTag_Get (sfTag f) tagName) "-").

(** ** Example records

    [type Inner struct { X int; y string; F func(); I interface{} }],
    [type Outer struct { Name string; Age int `structs:"-"`; N Inner;
    in Inner; Q IntP }] with [type IntP *int],
    [type Holder struct { R Outer }], a variable of type [Outer] at
    allocation 0 and a variable of type [Holder] at allocation 1. *)
Module Ex.
Definition sfX : StructField := mkStructField "X" "" TInt [] false.
Definition sfy : StructField := mkStructField "y" "main" TString [] false.
Definition sfF : StructField := mkStructField "F" "" TFunc [] false.
Definition sfI : StructField := mkStructField "I" "" TEface [] false.
Definition tInner : rtype := TNamed "Inner" (TStruct [sfX; sfy; sfF; sfI]).
Definition tIntP : rtype := TNamed "IntP" (TPtr TInt).
Definition sfName_ : StructField := mkStructField "Name" "" TString [] false.
Definition sfAge : StructField :=
  mkStructField "Age" "" TInt [("structs", "-")] false.
Definition sfN : StructField := mkStructField "N" "" tInner [] false.
Definition sfin : StructField := mkStructField "in" "main" tInner [] false.
Definition sfQ : StructField := mkStructField "Q" "" tIntP [] false.
Definition tOuter : rtype :=
  TNamed "Outer" (TStruct [sfName_; sfAge; sfN; sfin; sfQ]).
Definition inner0 : val :=
  VStruct [VInt 7; VString "s"; VFunc None; VEface None].
Definition outer0 : val :=
  VStruct [VString "Ann"; VInt 30; inner0; inner0; VPtr None].
Definition sfR : StructField := mkStructField "R" "" tOuter [] false.
Definition tHolder : rtype := TNamed "Holder" (TStruct [sfR]).
Definition h0 : heap := [outer0; VStruct [outer0]].
(** The descriptor of a field [R Outer] whose storage is allocation 0,
    and the descriptors of the fields of that record, as the package
    builds them with the default tag key ["structs"]. *)
Definition dR : Field :=
  mkField (Val tOuter (Ref (0, [])) false false) sfR "structs".
(** The descriptor of a field [H Holder] whose storage is allocation 1. *)
Definition dH : Field :=
  mkField (Val tHolder (Ref (1, [])) false false)
          (mkStructField "H" "" tHolder [] false) "structs".
Definition dN : Field :=
  mkField (Val tInner (Ref (0, [2])) false false) sfN "structs".
Definition dX : Field :=
  mkField (Val TInt (Ref (0, [2; 0])) false false) sfX "structs".
Definition dy : Field :=
  mkField (Val TString (Ref (0, [2; 1])) true false) sfy "structs".
Definition dI : Field :=
  mkField (Val TEface (Ref (0, [2; 3])) false false) sfI "structs".
Definition dQ : Field :=
  mkField (Val tIntP (Ref (0, [4])) false false) sfQ "structs".
(** The descriptors of the unexported field [in] and of its exported
    field [X], with the marks that [Value.Field] gives them. *)
Definition d_in : Field :=
  mkField (Val tInner (Ref (0, [3])) true false) sfin "structs".
Definition dX_in : Field :=
  mkField (Val TInt (Ref (0, [3; 0])) true false) sfX "structs".
(** The descriptor of [N] over a detached copy of the record. *)
Definition dN_copy : Field :=
  mkField (Val tInner (Imm inner0) false false) sfN "structs".
End Ex.

(** * Properties *)

(** ** Induction over types and values *)

Section rtype_induction.
Variable P : rtype -> Prop.
Hypothesis HBool : P TBool.
Hypothesis HInt : P TInt.
Hypothesis HString : P TString.
Hypothesis HFunc : P TFunc.
Hypothesis HEface : P TEface.
Hypothesis HPtr : forall e, P e -> P (TPtr e).
Hypothesis HStruct : forall fs, Forall (fun f => P (sfType f)) fs -> P (TStruct fs).
Hypothesis HNamed : forall n u, P u -> P (TNamed n u).

Fixpoint rtype_ind' (t : rtype) : P t :=
  match t with
  | TBool => HBool
  | TInt => HInt
  | TString => HString
  | TFunc => HFunc
  | TEface => HEface
  | TPtr e => HPtr e (rtype_ind' e)
  | TStruct fs =>
      HStruct fs
        ((fix go (l : list StructField) : Forall (fun f => P (sfType f)) l :=
            match l with
            | [] => Forall_nil _
            | f :: l' =>
                Forall_cons _ f l'
                  (match f as f0 return P (sfType f0) with
                   | mkStructField _ _ t' _ _ => rtype_ind' t'
                   end)
                  (go l')
            end) fs)
  | TNamed n u => HNamed n u (rtype_ind' u)
  end.
End rtype_induction.

Section val_induction.
Variable P : val -> Prop.
Hypothesis HVBool : forall b, P (VBool b).
Hypothesis HVInt : forall n, P (VInt n).
Hypothesis HVString : forall s, P (VString s).
Hypothesis HVFunc : forall c, P (VFunc c).
Hypothesis HVPtr : forall p, P (VPtr p).
Hypothesis HVNil : P (VEface None).
Hypothesis HVEface : forall t x, P x -> P (VEface (Some (t, x))).
Hypothesis HVStruct : forall xs, Forall P xs -> P (VStruct xs).

Fixpoint val_ind' (x : val) : P x :=
  match x with
  | VBool b => HVBool b
  | VInt n => HVInt n
  | VString s => HVString s
  | VFunc c => HVFunc c
  | VPtr p => HVPtr p
  | VEface None => HVNil
  | VEface (Some (t, y)) => HVEface t y (val_ind' y)
  | VStruct xs =>
      HVStruct xs
        ((fix go (l : list val) : Forall P l :=
            match l with
            | [] => Forall_nil _
            | y :: l' => Forall_cons _ y l' (val_ind' y) (go l')
            end) xs)
  end.
End val_induction.

#[local] Arguments kind_of : simpl never.
#[local] Arguments struct_fields : simpl never.
#[local] Arguments ptr_elem : simpl never.
#[local] Arguments Type_FieldByName : simpl never.
#[local] Arguments Type_AssignableTo : simpl never.

(** ** Type identity and assignability *)

Lemma tag_eqb_eq (a b : StructTag) : tag_eqb a b = true <-> a = b.
Proof.
  revert b. induction a as [|[k v] a IH]; intros [|[k' v'] b]; simpl;
    try (split; [discriminate | congruence]); try tauto.
  rewrite !andb_true_iff, !String.eqb_eq, IH.
  split; [intros [[-> ->] ->]; reflexivity | intros [= -> -> ->]; auto].
Qed.

Lemma rtype_eqb_eq (a : rtype) : forall b, rtype_eqb a b = true <-> a = b.
Proof.
  induction a as [ | | | | | e IH | fs IH | n u IH] using rtype_ind';
    intros b; destruct b; simpl;
    try (split; [discriminate | congruence]); try tauto.
  - rewrite IH. split; congruence.
  - revert fields. induction IH as [|f fs Hf Hfs IHfs]; intros [|g gs];
      try (split; [discriminate | congruence]); try tauto.
    rewrite andb_true_iff, IHfs.
    assert (sfield_eqb f g = true <-> f = g) as ->.
    { destruct f as [n p t tg an], g as [n' p' t' tg' an']. simpl in *.
      rewrite !andb_true_iff, !String.eqb_eq, Hf, tag_eqb_eq, Bool.eqb_true_iff.
      split; [intros [[[[-> ->] ->] ->] ->]; reflexivity
             | intros [= -> -> -> -> ->]; auto]. }
    split; [intros [-> [= ->]]; reflexivity | intros [= -> ->]; auto].
  - rewrite andb_true_iff, String.eqb_eq, IH.
    split; [intros [-> ->]; reflexivity | intros [= -> ->]; auto].
Qed.

Lemma rtype_eqb_refl (t : rtype) : rtype_eqb t t = true.
Proof. apply rtype_eqb_eq. reflexivity. Qed.

Lemma Kind_eqb_eq (a b : Kind) : Kind_eqb a b = true <-> a = b.
Proof. destruct a, b; simpl; split; congruence. Qed.

Lemma Kind_eqb_refl (k : Kind) : Kind_eqb k k = true.
Proof. destruct k; reflexivity. Qed.

Lemma Kind_eqb_neq (a b : Kind) : Kind_eqb a b = false <-> a <> b.
Proof. destruct a, b; simpl; split; congruence. Qed.

Lemma underlying_idem (t : rtype) : underlying (underlying t) = underlying t.
Proof. induction t; simpl; auto. Qed.

Lemma underlying_not_named (t : rtype) (n : string) (u : rtype) :
  underlying t <> TNamed n u.
Proof. induction t; simpl; auto; discriminate. Qed.

Lemma kind_of_underlying (t : rtype) : kind_of (underlying t) = kind_of t.
Proof. unfold kind_of. rewrite underlying_idem. reflexivity. Qed.

(** A type that is directly assignable to another has its kind. *)
Lemma directlyAssignable_kind (T V : rtype) :
  directlyAssignable T V = true -> kind_of T = kind_of V.
Proof.
  unfold directlyAssignable.
  destruct (rtype_eqb T V) eqn:E.
  - apply rtype_eqb_eq in E. congruence.
  - destruct (hasName T && hasName V); simpl; [discriminate|].
    destruct (Kind_eqb (kind_of T) (kind_of V)) eqn:K; simpl; [|discriminate].
    intros _. apply Kind_eqb_eq, K.
Qed.

Lemma AssignableTo_refl (t : rtype) : Type_AssignableTo t t = true.
Proof.
  unfold Type_AssignableTo, directlyAssignable.
  rewrite rtype_eqb_refl. reflexivity.
Qed.

(** The value [assignTo] hands to the store, for a concrete dynamic type
    that is assignable to the type of the destination. *)
Lemma assignTo_stored_form (h : heap) (vt ft : rtype) (x : val) :
  Kind_eqb (kind_of vt) Interface = false ->
  Type_AssignableTo vt ft = true ->
  assignTo h (ValueOf (Some (vt, x))) ft = Ret (stored_form ft vt x).
Proof.
  intros Hc Ha. unfold stored_form. simpl.
  destruct (directlyAssignable ft vt) eqn:D.
  - apply directlyAssignable_kind in D. rewrite D, Hc. reflexivity.
  - unfold Type_AssignableTo in Ha. rewrite D in Ha. simpl in Ha.
    rewrite Ha. unfold implements in Ha. rewrite Ha, Hc. reflexivity.
Qed.

(** ** Storage *)

Lemma set_get_path (v : val) (p : list nat) (old new : val) :
  get_path v p = Some old ->
  exists v', set_path v p new = Some v' /\ get_path v' p = Some new.
Proof.
  revert v. induction p as [|i p IH]; intros v; simpl.
  - eauto.
  - destruct v; try discriminate.
    destruct (fs !! i) as [w|] eqn:Hi; [|discriminate].
    intros Hg. destruct (IH _ Hg) as (w' & -> & Hw').
    eexists; split; [reflexivity|]. simpl.
    rewrite list_lookup_insert_eq by (eapply lookup_lt_Some; eauto).
    exact Hw'.
Qed.

(** A write through a location extended by a path rewrites the value at
    the location along that path. *)
Lemma set_path_app (v : val) (p q : list nat) (w w' new : val) :
  get_path v p = Some w -> set_path w q new = Some w' ->
  exists v', set_path v (p ++ q) new = Some v' /\ get_path v' p = Some w'.
Proof.
  revert v. induction p as [|j p IH]; intros v; simpl.
  - intros [= ->] Hq. eauto.
  - destruct v; try discriminate.
    destruct (fs !! j) as [u|] eqn:Hj; [|discriminate].
    intros Hg Hq. destruct (IH _ Hg Hq) as (u' & -> & Hu').
    eexists; split; [reflexivity|]. simpl.
    rewrite list_lookup_insert_eq by (eapply lookup_lt_Some; eauto).
    exact Hu'.
Qed.

Lemma store_load (h : heap) (a : addr) (old new : val) :
  load h a = Some old ->
  exists h', store h a new = Some h' /\ load h' a = Some new /\
             length h' = length h /\
             forall l, l <> a.1 -> h' !! l = h !! l.
Proof.
  unfold load, store. destruct (h !! a.1) as [v|] eqn:Hl; [|discriminate].
  intros Hg. destruct (set_get_path _ _ _ new Hg) as (v' & -> & Hv').
  eexists; split; [reflexivity|].
  rewrite list_lookup_insert_eq by (eapply lookup_lt_Some; eauto).
  repeat split; auto using length_insert.
  intros l Hne. apply list_lookup_insert_ne. congruence.
Qed.

Lemma store_sub (h : heap) (a : addr) (q : list nat) (w w' new : val) :
  load h a = Some w -> set_path w q new = Some w' ->
  exists h', store h (a.1, a.2 ++ q)%list new = Some h' /\
             load h' a = Some w' /\
             forall l, l <> a.1 -> h' !! l = h !! l.
Proof.
  unfold load, store. simpl.
  destruct (h !! a.1) as [v|] eqn:Hl; [|discriminate].
  intros Hg Hq. destruct (set_path_app _ _ _ _ _ new Hg Hq) as (v' & -> & Hv').
  eexists; split; [reflexivity|].
  rewrite list_lookup_insert_eq by (eapply lookup_lt_Some; eauto).
  split; [exact Hv'|].
  intros l Hne. apply list_lookup_insert_ne. congruence.
Qed.

Lemma load_field (h : heap) (a : addr) (i : nat) (xs : list val) :
  load h a = Some (VStruct xs) ->
  load h (a.1, a.2 ++ [i])%list = xs !! i.
Proof.
  unfold load. simpl. destruct (h !! a.1) as [v|]; [|discriminate].
  generalize (a.2). intros p. revert v.
  induction p as [|j p IH]; intros v; simpl.
  - intros [= ->]. destruct (xs !! i); reflexivity.
  - destruct v; try discriminate.
    destruct (fs !! j) as [w|]; [|discriminate]. apply IH.
Qed.

(** ** Set and Zero *)

Lemma CanSet_inv (v : Value) :
  Value_CanSet v = true -> exists t a, v = Val t (Ref a) false false.
Proof.
  destruct v as [|t [x|a] s e]; simpl; try discriminate.
  unfold Value_CanSet; simpl. destruct s, e; simpl; try discriminate. eauto.
Qed.

Lemma CanSet_CanAddr (v : Value) :
  Value_CanAddr v = false -> Value_CanSet v = false.
Proof. unfold Value_CanSet. intros ->. reflexivity. Qed.

(** Set on an exported descriptor whose handle is a settable reference:
    the converted value is written to the storage the handle refers to and
    nowhere else. *)
Lemma Field_Set_writes (h : heap) (f : Field) (ft vt : rtype) (a : addr)
    (x old : val) :
  Field_IsExported f = true ->
  value f = Val ft (Ref a) false false ->
  Kind_eqb (kind_of vt) Interface = false ->
  Type_AssignableTo vt ft = true ->
  load h a = Some old ->
  exists h', Field_Set h f (Some (vt, x)) = Ret (h', None) /\
             store h a (stored_form ft vt x) = Some h' /\
             load h' a = Some (stored_form ft vt x) /\
             forall l, l <> a.1 -> h' !! l = h !! l.
Proof.
  intros He Hv Hc Ha Hl.
  destruct (store_load h a old (stored_form ft vt x) Hl)
    as (h' & Hs & Hl' & _ & Hfr).
  exists h'. repeat split; auto.
  unfold Field_Set. rewrite He, Hv. simpl. rewrite Ha. simpl.
  pose proof (assignTo_stored_form h vt ft x Hc Ha) as Hat. simpl in Hat.
  rewrite Hat. simpl. rewrite Hs. reflexivity.
Qed.

(** A failed Set leaves the heap as it was. *)
Lemma Field_Set_error_heap (h h' : heap) (f : Field) (val : any) (e : error) :
  Field_Set h f val = Ret (h', Some e) -> h' = h.
Proof.
  unfold Field_Set.
  destruct (Field_IsExported f); simpl; [|congruence].
  destruct (Value_CanSet (value f)); simpl; [|congruence].
  destruct (Value_Type (ValueOf val)) as [vt| |]; simpl; try discriminate.
  destruct (Value_Type (value f)) as [ft| |]; simpl; try discriminate.
  destruct (Type_AssignableTo vt ft); simpl; [|congruence].
  destruct (Value_Set h (value f) (ValueOf val)); simpl; discriminate.
Qed.

(** C1 (as amended).  Set checks in a fixed order.  A field that is not
    exported gives NotExported whatever the handle and the new value are.
    Otherwise a handle that is not addressable in the spec's sense, that
    is not settable, gives NotSettable; so does, in particular, every
    handle that does not refer to storage.  Otherwise a new value that is
    not nil and whose dynamic type is not assignable to the field's type
    gives TypeMismatch with both types.  Otherwise a new value that is not
    nil is written, converted to the field's type, to the storage the
    handle refers to, other variables are untouched, and no error is
    returned. *)
Theorem C1_Set_checks_in_order (h : heap) (f : Field) (val : any) :
  (Field_IsExported f = false ->
   Field_Set h f val = Ret (h, Some errNotExported)) /\
  (Field_IsExported f = true -> Value_CanSet (value f) = false ->
   Field_Set h f val = Ret (h, Some errNotSettable)) /\
  (Field_IsExported f = true -> Value_CanAddr (value f) = false ->
   Field_Set h f val = Ret (h, Some errNotSettable)) /\
  (forall vt x ft,
     val = Some (vt, x) ->
     Field_IsExported f = true -> Value_CanSet (value f) = true ->
     Value_Type (value f) = Ret ft ->
     Type_AssignableTo vt ft = false ->
     Field_Set h f val = Ret (h, Some (errCantAssign vt ft))) /\
  (forall vt x ft a old,
     val = Some (vt, x) -> Kind_eqb (kind_of vt) Interface = false ->
     Field_IsExported f = true -> value f = Val ft (Ref a) false false ->
     Type_AssignableTo vt ft = true ->
     load h a = Some old ->
     exists h', Field_Set h f val = Ret (h', None) /\
                store h a (stored_form ft vt x) = Some h' /\
                load h' a = Some (stored_form ft vt x) /\
                forall l, l <> a.1 -> h' !! l = h !! l).
Proof.
  repeat split.
  - intros He. unfold Field_Set. rewrite He. reflexivity.
  - intros He Hs. unfold Field_Set. rewrite He, Hs. reflexivity.
  - intros He Ha. unfold Field_Set.
    rewrite He, (CanSet_CanAddr _ Ha). reflexivity.
  - intros vt x ft -> He Hs Ht Hna. unfold Field_Set.
    rewrite He, Hs. simpl. rewrite Ht. simpl. rewrite Hna. reflexivity.
  - intros vt x ft a old -> Hc He Hv Ha Hl.
    eapply Field_Set_writes; eauto.
Qed.

Lemma C1_Set_checks_in_order_witness :
  exists h', Field_Set Ex.h0 Ex.dX (Some (TInt, VInt 9)) = Ret (h', None) /\
             store Ex.h0 (0, [2; 0]) (stored_form TInt TInt (VInt 9)) = Some h' /\
             load h' (0, [2; 0]) = Some (stored_form TInt TInt (VInt 9)) /\
             forall l, l <> 0 -> h' !! l = Ex.h0 !! l.
Proof.
  destruct (C1_Set_checks_in_order Ex.h0 Ex.dX (Some (TInt, VInt 9)))
    as (_ & _ & _ & _ & H).
  apply (H TInt (VInt 9) TInt (0, [2; 0]) (VInt 7)); reflexivity.
Defined.

(** C1, the claim as written, fails for the nil value: on an exported,
    settable field Set neither returns one of the three errors nor
    writes; the call does not return at all. *)
Lemma C1_nil_counterexample :
  Field_IsExported Ex.dX = true /\
  Value_CanAddr (value Ex.dX) = true /\
  Value_CanSet (value Ex.dX) = true /\
  Field_Set Ex.h0 Ex.dX None = Panic (ZeroValueCall "Type") /\
  ~ (exists r, Field_Set Ex.h0 Ex.dX None = Ret r).
Proof.
  repeat split. intros [r Hr]. discriminate Hr.
Qed.

(** A handle can refer to storage and still not be settable: the exported
    field [X] reached through the unexported field [in] inherits the
    read-only mark, and Set on it returns NotSettable. *)
Example Set_through_unexported_field :
  Value_Field (value Ex.d_in) 0 = Ret (value Ex.dX_in) /\
  Field_IsExported Ex.dX_in = true /\
  Value_CanAddr (value Ex.dX_in) = true /\
  Value_CanSet (value Ex.dX_in) = false /\
  Field_Set Ex.h0 Ex.dX_in (Some (TInt, VInt 9))
  = Ret (Ex.h0, Some errNotSettable).
Proof. repeat split. Qed.

(** C5.  When Set or Zero returns an error, the heap is the heap before
    the call: nothing was written. *)
Theorem C5_failed_Set_writes_nothing (h h' : heap) (f : Field) (val : any)
    (e : error) :
  Field_Set h f val = Ret (h', Some e) \/ Field_Zero h f = Ret (h', Some e) ->
  h' = h.
Proof.
  intros [H|H].
  - exact (Field_Set_error_heap _ _ _ _ _ H).
  - unfold Field_Zero in H.
    destruct (Value_Type (value f)) as [t| |]; unfold bind in H;
      try discriminate.
    destruct (Value_Interface h (Zero t)) as [z| |]; try discriminate.
    exact (Field_Set_error_heap _ _ _ _ _ H).
Qed.

Lemma C5_failed_Set_writes_nothing_witness :
  (Field_Set Ex.h0 Ex.dX (Some (TString, VString "a"))
     = Ret (Ex.h0, Some (errCantAssign TString TInt)) \/
   Field_Zero Ex.h0 Ex.dX = Ret (Ex.h0, Some (errCantAssign TString TInt))) /\
  Ex.h0 = Ex.h0.
Proof.
  assert (Field_Set Ex.h0 Ex.dX (Some (TString, VString "a"))
            = Ret (Ex.h0, Some (errCantAssign TString TInt)) \/
          Field_Zero Ex.h0 Ex.dX
            = Ret (Ex.h0, Some (errCantAssign TString TInt))) as H
    by (left; reflexivity).
  split; [exact H|].
  exact (C5_failed_Set_writes_nothing Ex.h0 Ex.h0 Ex.dX _ _ H).
Defined.




(** C10.  On a descriptor whose value is a struct, not a pointer, held in
    a handle that is not addressable, Field panics for every name where
    it takes the address of the value. *)
Theorem C10_Field_of_copy_panics (h : heap) (f : Field) (name : string) :
  Value_Kind (value f) = Struct -> Value_CanAddr (value f) = false ->
  Field_Field h f name = Panic UnaddressableValue.
Proof.
  intros Hk Ha. unfold Field_Field. rewrite Hk. simpl.
  destruct (value f) as [|t [x|a] s e]; simpl in *; try discriminate;
    reflexivity.
Qed.

Lemma C10_Field_of_copy_panics_witness :
  Field_Field Ex.h0 Ex.dN_copy "X" = Panic UnaddressableValue.
Proof.
  apply C10_Field_of_copy_panics; reflexivity.
Defined.

(** ** Field: lookup in a nested record *)

Lemma find_field_lookup (fs : list StructField) (name : string) (k i : nat)
    (sf : StructField) :
  find_field fs name k = Some (i, sf) ->
  exists j, i = k + j /\ fs !! j = Some sf /\ sfName sf = name.
Proof.
  revert k. induction fs as [|f fs IH]; intros k; simpl; [discriminate|].
  destruct (String.eqb (sfName f) name) eqn:E.
  - intros [= <- <-]. exists 0. apply String.eqb_eq in E.
    repeat split; auto with lia.
  - intros H. destruct (IH _ H) as (j & -> & Hj & Hn).
    exists (S j). repeat split; auto with lia.
Qed.

Lemma immediate_field_lookup (t : rtype) (name : string) (i : nat)
    (sf : StructField) :
  immediate_field t name i sf ->
  struct_fields t !! i = Some sf /\ sfName sf = name.
Proof.
  intros (_ & _ & H). destruct (find_field_lookup _ _ _ _ _ H) as (j & -> & ?).
  simpl. tauto.
Qed.

Lemma deref_all_done (h : heap) (n : nat) (v : Value) :
  Kind_eqb (Value_Kind v) Ptr = false -> deref_all h n v = Ret v.
Proof. intros H. destruct n; simpl; rewrite H; reflexivity. Qed.

Lemma ptr_depth_Ptr (t e : rtype) :
  ptr_elem t = Some e -> ptr_depth t = S (ptr_depth e).
Proof.
  unfold ptr_elem. induction t; simpl; try discriminate; auto.
  intros [= ->]. reflexivity.
Qed.

(** [structVal] of a pointer to a record is the record in its storage. *)
Lemma structVal_pointer (h : heap) (t et : rtype) (b : addr) :
  ptr_elem t = Some et -> kind_of et = Struct ->
  structVal h (Some (t, VPtr (Some b))) = Ret (Val et (Ref b) false false).
Proof.
  intros He Hk. unfold structVal. simpl.
  rewrite (ptr_depth_Ptr _ _ He). simpl.
  assert (kind_of t = Ptr) as Hp.
  { unfold kind_of. unfold ptr_elem in He.
    destruct (underlying t); try discriminate. reflexivity. }
  rewrite Hp, He. simpl.
  rewrite deref_all_done by (simpl; rewrite Hk; reflexivity).
  simpl. rewrite Hk. reflexivity.
Qed.

(** The lookup of an immediate field in a record held in storage. *)
Lemma lookup_in_record (t : rtype) (a : addr) (name : string) (i : nat)
    (sf : StructField) :
  immediate_field t name i sf ->
  (r <- Type_FieldByName t name ;;
   match r with
   | None => Ret None
   | Some (_, fld) =>
       fv <- Value_FieldByName (Val t (Ref a) false false) name ;;
       Ret (Some (mkField fv fld ""))
   end)
  = Ret (Some (mkField (Val (sfType sf) (Ref (a.1, a.2 ++ [i])%list)
                            (field_sticky sf) (field_embed sf)) sf "")).
Proof.
  intros Hi. destruct (immediate_field_lookup _ _ _ _ Hi) as [Hl _].
  destruct Hi as (Hk & Hn & Hf).
  assert (Type_FieldByName t name = Ret (Some (i, sf))) as HT.
  { unfold Type_FieldByName. rewrite Hk. simpl.
    destruct (String.eqb name "") eqn:E; [apply String.eqb_eq in E; tauto|].
    rewrite Hf. reflexivity. }
  rewrite HT. simpl. rewrite Hk, HT. simpl. rewrite Hl. reflexivity.
Qed.

Lemma Field_Field_record (h : heap) (f : Field) (rt : rtype) (b : addr)
    (name : string) (i : nat) (sf : StructField) :
  record_at h (value f) = Some (rt, b) ->
  immediate_field rt name i sf ->
  Field_Field h f name
  = Ret (Some (mkField (Val (sfType sf) (Ref (b.1, b.2 ++ [i])%list)
                            (field_sticky sf) (field_embed sf)) sf "")).
Proof.
  intros Hr Hi. unfold Field_Field.
  destruct (value f) as [|t d [|] [|]]; simpl in Hr; try discriminate.
  destruct (kind_of t) eqn:Hk; try discriminate.
  - (* a pointer to the record *)
    simpl. rewrite Hk. simpl.
    destruct (contents h d) as [x| |]; try discriminate.
    destruct x as [| | | |[c|]| |]; try discriminate.
    destruct (ptr_elem t) as [et|] eqn:He; try discriminate.
    destruct (Kind_eqb (kind_of et) Struct) eqn:Hs; try discriminate.
    injection Hr as -> ->. apply Kind_eqb_eq in Hs.
    simpl. rewrite Hk. simpl.
    rewrite (structVal_pointer h t rt b He Hs). simpl.
    apply lookup_in_record, Hi.
  - (* the record itself, in addressable storage *)
    destruct d as [x|a]; try discriminate. injection Hr as -> ->.
    simpl. rewrite Hk. simpl.
    rewrite (structVal_pointer h (TPtr rt) rt b eq_refl Hk). simpl.
    apply lookup_in_record, Hi.
Qed.

Lemma field_marks_exported (sf : StructField) :
  sfPkgPath sf = "" -> field_sticky sf = false /\ field_embed sf = false.
Proof. unfold field_sticky, field_embed. intros ->. split; reflexivity. Qed.

(** C2.  Let the parent descriptor stand for a record held in addressable
    storage (or for a pointer to a record), its handle readable, and let
    [name] name the immediate field [sf] of the record.  Then Field
    returns a descriptor whose handle is addressable and refers to that
    field inside the record's own storage; the handle's marks agree with
    the field's metadata.  A Set through it of a value assignable to an
    exported field writes the record in place: reading the record
    afterwards shows the field replaced.  The same holds one level
    further down, through a second Field lookup in a nested record. *)
Theorem C2_Field_keeps_addressability (h : heap) (f : Field) (rt : rtype)
    (b : addr) (name : string) (i : nat) (sf : StructField) :
  record_at h (value f) = Some (rt, b) ->
  immediate_field rt name i sf ->
  exists d,
    Field_Field h f name = Ret (Some d) /\
    field d = sf /\
    value d = Val (sfType sf) (Ref (b.1, b.2 ++ [i])%list)
                  (field_sticky sf) (field_embed sf) /\
    Value_CanAddr (value d) = true /\
    consistent d /\
    (forall xs old vt x,
       load h b = Some (VStruct xs) -> xs !! i = Some old ->
       sfPkgPath sf = "" ->
       Kind_eqb (kind_of vt) Interface = false ->
       Type_AssignableTo vt (sfType sf) = true ->
       exists h',
         Field_Set h d (Some (vt, x)) = Ret (h', None) /\
         load h' b = Some (VStruct (<[i := stored_form (sfType sf) vt x]> xs))) /\
    (forall name2 j sf2,
       sfPkgPath sf = "" ->
       immediate_field (sfType sf) name2 j sf2 ->
       exists d2,
         Field_Field h d name2 = Ret (Some d2) /\
         field d2 = sf2 /\
         value d2 = Val (sfType sf2) (Ref (b.1, b.2 ++ [i; j])%list)
                        (field_sticky sf2) (field_embed sf2) /\
         forall xs ys old vt x,
           load h b = Some (VStruct xs) -> xs !! i = Some (VStruct ys) ->
           ys !! j = Some old ->
           sfPkgPath sf2 = "" ->
           Kind_eqb (kind_of vt) Interface = false ->
           Type_AssignableTo vt (sfType sf2) = true ->
           exists h',
             Field_Set h d2 (Some (vt, x)) = Ret (h', None) /\
             load h' b
             = Some (VStruct (<[i := VStruct
                                  (<[j := stored_form (sfType sf2) vt x]> ys)]>
                                xs))).
Proof.
  intros Hr Hi. eexists. split; [eapply Field_Field_record; eauto|].
  simpl. repeat split.
  - unfold consistent, Field_IsExported, field_sticky, field_embed. simpl.
    destruct (String.eqb (sfPkgPath sf) ""), (sfAnonymous sf); reflexivity.
  - intros xs old vt x Hl Hx He Hc Ha.
    destruct (field_marks_exported sf He) as [-> ->].
    assert (set_path (VStruct xs) [i] (stored_form (sfType sf) vt x)
            = Some (VStruct (<[i := stored_form (sfType sf) vt x]> xs))) as Hq
      by (simpl; rewrite Hx; reflexivity).
    destruct (store_sub h b [i] _ _ _ Hl Hq) as (h' & Hs & Hl' & _).
    edestruct (Field_Set_writes h
                 (mkField (Val (sfType sf) (Ref (b.1, b.2 ++ [i])%list)
                               false false) sf "")
                 (sfType sf) vt (b.1, b.2 ++ [i])%list x old)
      as (h'' & HS & Hs' & _); simpl; auto.
    { unfold Field_IsExported. simpl. rewrite He. reflexivity. }
    { rewrite (load_field h b i xs Hl). exact Hx. }
    exists h'. split; [|exact Hl']. rewrite HS. congruence.
  - intros name2 j sf2 He Hi2.
    destruct (field_marks_exported sf He) as [-> ->].
    destruct Hi2 as (Hk2 & Hn2 & Hf2).
    eexists. split.
    { eapply Field_Field_record; [|repeat split; eauto].
      simpl. rewrite Hk2. reflexivity. }
    simpl. rewrite <- !app_assoc. simpl. repeat split.
    intros xs ys old vt x Hl Hx Hy He2 Hc Ha.
    destruct (field_marks_exported sf2 He2) as [-> ->].
    assert (set_path (VStruct xs) [i; j] (stored_form (sfType sf2) vt x)
            = Some (VStruct (<[i := VStruct
                               (<[j := stored_form (sfType sf2) vt x]> ys)]>
                               xs))) as Hq
      by (simpl; rewrite Hx, Hy; reflexivity).
    destruct (store_sub h b [i; j] _ _ _ Hl Hq) as (h' & Hs & Hl' & _).
    assert (load h (b.1, b.2 ++ [i; j])%list = Some old) as Hold.
    { pose proof (load_field h b i xs Hl) as H1. rewrite Hx in H1.
      pose proof (load_field h (b.1, b.2 ++ [i])%list j ys H1) as H2.
      simpl in H2. rewrite <- app_assoc in H2. simpl in H2. congruence. }
    edestruct (Field_Set_writes h
                 (mkField (Val (sfType sf2) (Ref (b.1, b.2 ++ [i; j])%list)
                               false false) sf2 "")
                 (sfType sf2) vt (b.1, b.2 ++ [i; j])%list x old)
      as (h'' & HS & Hs' & _); simpl; auto.
    { unfold Field_IsExported. simpl. rewrite He2. reflexivity. }
    exists h'. split; [|exact Hl']. rewrite HS. congruence.
Qed.

Lemma C2_Field_keeps_addressability_witness :
  exists d d2 h',
    Field_Field Ex.h0 Ex.dR "N" = Ret (Some d) /\
    Field_Field Ex.h0 d "X" = Ret (Some d2) /\
    Field_Set Ex.h0 d2 (Some (TInt, VInt 9)) = Ret (h', None) /\
    load h' (0, [])
    = Some (VStruct [VString "Ann"; VInt 30;
                     VStruct [VInt 9; VString "s"; VFunc None; VEface None];
                     Ex.inner0; VPtr None]).
Proof.
  destruct (C2_Field_keeps_addressability
              Ex.h0 Ex.dR Ex.tOuter (0, []) "N" 2 Ex.sfN)
    as (d & Hd & _ & _ & _ & _ & _ & H2).
  { reflexivity. }
  { repeat split; first [reflexivity | discriminate]. }
  destruct (H2 "X" 0 Ex.sfX) as (d2 & Hd2 & _ & _ & H3).
  { reflexivity. }
  { repeat split; first [reflexivity | discriminate]. }
  destruct (H3 [VString "Ann"; VInt 30; Ex.inner0; Ex.inner0; VPtr None]
               [VInt 7; VString "s"; VFunc None; VEface None]
               (VInt 7) TInt (VInt 9))
    as (h' & HS & Hl); try reflexivity.
  exists d, d2, h'. repeat split; assumption.
Defined.

(** ** Shapes and zero values *)

Lemma zero_val_struct (fs : list StructField) :
  zero_val (TStruct fs) = VStruct (map (fun f => zero_val (sfType f)) fs).
Proof.
  simpl. f_equal.
  induction fs as [|[n p t g a] fs IH]; simpl; [reflexivity|].
  f_equal. exact IH.
Qed.

Lemma zero_val_underlying (t : rtype) : zero_val t = zero_val (underlying t).
Proof. induction t; simpl; auto. Qed.

Lemma has_shape_underlying (x : val) (t : rtype) :
  has_shape x t = has_shape x (underlying t).
Proof. destruct x; simpl; rewrite underlying_idem; reflexivity. Qed.

Lemma has_shape_struct (xs : list val) (fs : list StructField) :
  has_shape (VStruct xs) (TStruct fs) = true <->
  Forall2 (fun y f => has_shape y (sfType f) = true) xs fs.
Proof.
  simpl. revert fs. induction xs as [|y xs IH]; intros [|f fs].
  - split; [constructor | reflexivity].
  - split; [discriminate | inversion 1].
  - split; [discriminate | inversion 1].
  - rewrite andb_true_iff, IH. split.
    + intros [? ?]. constructor; assumption.
    + inversion 1; subst. split; assumption.
Qed.

Lemma val_depth_struct (xs : list val) (y : val) (n : nat) :
  val_depth (VStruct xs) < S n -> y ∈ xs -> val_depth y < n.
Proof.
  simpl. intros Hd Hy.
  assert (val_depth y <= max_list (map val_depth xs))%nat.
  { apply max_list_elem_of_le. apply list_elem_of_fmap. eauto. }
  lia.
Qed.

Lemma kind_of_by_underlying (t u : rtype) :
  underlying t = u -> kind_of t = kind_of u.
Proof. intros <-. symmetry. apply kind_of_underlying. Qed.

Lemma struct_fields_by_underlying (t : rtype) (fs : list StructField) :
  underlying t = TStruct fs -> struct_fields t = fs.
Proof. unfold struct_fields. intros ->. reflexivity. Qed.

Lemma kind_Interface_underlying (t : rtype) :
  kind_of t = Interface -> underlying t = TEface.
Proof.
  unfold kind_of. destruct (underlying t); try discriminate. reflexivity.
Qed.

Lemma kind_Struct_underlying (t : rtype) :
  kind_of t = Struct -> underlying t = TStruct (struct_fields t).
Proof.
  unfold kind_of, struct_fields.
  destruct (underlying t); try discriminate. reflexivity.
Qed.

(** ** DeepEqual against the zero value, and of a value with itself *)

Lemma deep_fields_zero
    (cmp : list visit -> option (rtype * val) -> option (rtype * val) ->
           outcome (bool * list visit))
    (vis : list visit) (xs : list val) (fs : list StructField) :
  Forall2 (fun y f =>
             exists b, cmp vis (Some (sfType f, y))
                           (Some (sfType f, zero_val (sfType f))) = Ret (b, vis)
                       /\ (b = true <-> y = zero_val (sfType f))) xs fs ->
  exists b, deep_fields cmp vis fs xs (map (fun f => zero_val (sfType f)) fs)
            = Ret (b, vis)
            /\ (b = true <-> xs = map (fun f => zero_val (sfType f)) fs).
Proof.
  induction 1 as [|y f xs fs (b & Hb & Hiff) _ (b' & Hb' & Hiff')]; simpl.
  - exists true. tauto.
  - rewrite Hb. simpl. destruct b.
    + exists b'. split; [exact Hb'|]. rewrite Hiff'. split.
      * intros ->. f_equal. apply Hiff. reflexivity.
      * intros [= _ ->]. reflexivity.
    + exists false. split; [reflexivity|]. split; [discriminate|].
      intros [= Hy _]. apply Hiff in Hy. discriminate.
Qed.

(** Comparing a value with the zero value of its type answers whether it
    is that zero value, and leaves the visited map as it was. *)
Lemma deepValueEqual_zero (h : heap) (x : val) :
  forall (t : rtype) (fuel : nat) (vis : list visit),
    has_shape x t = true -> val_depth x < fuel ->
    exists b, deepValueEqual h fuel vis (Some (t, x)) (Some (t, zero_val t))
              = Ret (b, vis)
              /\ (b = true <-> x = zero_val t).
Proof.
  induction x as [b|n|s|c|p| |dt dx IH|xs IH] using val_ind';
    intros t fuel vis Hs Hd; (destruct fuel as [|fuel]; [lia|]);
    rewrite has_shape_underlying in Hs;
    rewrite (zero_val_underlying t);
    destruct (underlying t) as [ | | | | |e|fs|m u] eqn:Hu; simpl in Hs;
    try discriminate;
    try (exfalso; exact (underlying_not_named _ _ _ Hu));
    pose proof (kind_of_by_underlying _ _ Hu) as Hk;
    unfold kind_of at 2 in Hk; simpl in Hk;
    cbn [deepValueEqual]; rewrite rtype_eqb_refl, Hk; cbn.
  - exists (Bool.eqb b false). split; [reflexivity|].
    destruct b; simpl; split; congruence.
  - exists (Z.eqb n 0). split; [reflexivity|].
    rewrite Z.eqb_eq. split; congruence.
  - exists (String.eqb s ""). split; [reflexivity|].
    rewrite String.eqb_eq. split; congruence.
  - destruct c; eexists; (split; [reflexivity|]); split; congruence.
  - destruct p; eexists; (split; [reflexivity|]); split; congruence.
  - exists true. tauto.
  - exists false. split; [reflexivity|]. split; discriminate.
  - rewrite (struct_fields_by_underlying _ _ Hu).
    change (has_shape (VStruct xs) (TStruct fs) = true) in Hs.
    apply has_shape_struct in Hs.
    pose proof (zero_val_struct fs) as Hz. simpl in Hz.
    injection Hz as Hz. rewrite Hz.
    destruct (deep_fields_zero (deepValueEqual h fuel) vis xs fs) as (b & Hb & Hiff).
    { clear Hu Hk Hz. revert IH Hd.
      induction Hs as [|y f xs fs Hy Hs IHs]; intros IH Hd; constructor.
      - inversion IH as [|? ? IHy _]; subst. apply IHy; [exact Hy|].
        eapply val_depth_struct; [exact Hd | left].
      - inversion IH as [|? ? _ IHxs]; subst. apply IHs; [exact IHxs|].
        simpl in *. lia. }
    exists b. split; [exact Hb|]. rewrite Hiff. split; congruence.
Qed.




(** [Value.Interface] on a readable handle, and on the zero value of a
    type. *)
Lemma Value_Interface_readable (h : heap) (t : rtype) (d : data) (x : val) :
  contents h d = Ret x -> has_shape x t = true ->
  Value_Interface h (Val t d false false) = Ret (iface_of t x).
Proof.
  intros Hc Hs. simpl. rewrite Hc. simpl. unfold iface_of.
  destruct (kind_of t) eqn:Hk; simpl; try reflexivity.
  rewrite has_shape_underlying, (kind_Interface_underlying _ Hk) in Hs.
  destruct x; try discriminate. reflexivity.
Qed.

Lemma has_shape_zero (t : rtype) : has_shape (zero_val t) t = true.
Proof.
  induction t as [ | | | | |e IH|fs IH|n u IH] using rtype_ind';
    try reflexivity.
  - rewrite zero_val_struct. apply has_shape_struct.
    induction IH as [|f fs Hf _ IHfs]; simpl; constructor; auto.
  - simpl. rewrite has_shape_underlying in IH |- *. exact IH.
Qed.

Lemma Zero_Interface (h : heap) (t : rtype) :
  Value_Interface h (Zero t) = Ret (iface_of t (zero_val t)).
Proof.
  apply Value_Interface_readable; [reflexivity | apply has_shape_zero].
Qed.

Lemma zero_val_Interface (t : rtype) :
  kind_of t = Interface -> zero_val t = VEface None.
Proof.
  intros Hk. rewrite zero_val_underlying, (kind_Interface_underlying _ Hk).
  reflexivity.
Qed.

Lemma iface_of_concrete (t : rtype) (x : val) :
  Kind_eqb (kind_of t) Interface = false -> iface_of t x = Some (t, x).
Proof.
  unfold iface_of. intros Hk. apply Kind_eqb_neq in Hk.
  destruct (kind_of t); try reflexivity. congruence.
Qed.


(** ** IsZero *)

(** IsZero on a descriptor whose handle carries no read-only mark. *)
Lemma Field_IsZero_readable (h : heap) (fuel : nat) (f : Field)
    (t : rtype) (d : data) (x : val) :
  value f = Val t d false false ->
  contents h d = Ret x -> has_shape x t = true -> val_depth x < fuel ->
  exists b,
    Field_IsZero h fuel f = Ret b /\
    DeepEqual h fuel (iface_of t x) (iface_of t (zero_val t)) = Ret b /\
    (b = true <-> x = zero_val t).
Proof.
  intros Hv Hx Hs Hd.
  assert (Field_IsZero h fuel f
          = DeepEqual h fuel (iface_of t x) (iface_of t (zero_val t))) as HZ.
  { unfold Field_IsZero, Field_Value. rewrite Hv.
    cbn [Value_Type bind]. rewrite Zero_Interface. cbn [bind].
    rewrite (Value_Interface_readable h t d x Hx Hs). reflexivity. }
  rewrite HZ.
  destruct (Kind_eqb (kind_of t) Interface) eqn:Hk.
  - apply Kind_eqb_eq in Hk. rewrite (zero_val_Interface t Hk).
    rewrite has_shape_underlying, (kind_Interface_underlying _ Hk) in Hs.
    unfold iface_of. rewrite Hk.
    destruct x as [| | | | |[[dt dx]|]|]; try discriminate; simpl.
    + exists false. repeat split; discriminate.
    + exists true. repeat split; reflexivity.
  - rewrite !iface_of_concrete by exact Hk. simpl.
    rewrite rtype_eqb_refl. simpl.
    destruct (deepValueEqual_zero h x t fuel [] Hs Hd) as (b & -> & Hb).
    exists b. simpl. repeat split; apply Hb.
Qed.



(** ** Value after Set *)




(** ** Zero *)

(** On a field whose type is not an interface type Zero does what its
    documentation says: on an exported, settable field it writes the zero
    value and IsZero is true afterwards. *)
Lemma Field_Zero_concrete_type (h : heap) (f : Field) (t : rtype) (a : addr)
    (old : val) :
  Field_IsExported f = true ->
  value f = Val t (Ref a) false false ->
  Kind_eqb (kind_of t) Interface = false ->
  load h a = Some old ->
  exists h',
    Field_Zero h f = Ret (h', None) /\
    load h' a = Some (zero_val t) /\
    forall fuel, val_depth (zero_val t) < fuel ->
                 Field_IsZero h' fuel f = Ret true.
Proof.
  intros He Hv Hk Hl.
  destruct (Field_Set_writes h f t t a (zero_val t) old He Hv Hk
              (AssignableTo_refl t) Hl) as (h' & HS & _ & Hl' & _).
  unfold stored_form in Hl'. rewrite Hk in Hl'.
  exists h'. split; [|split; [exact Hl'|]].
  - unfold Field_Zero. rewrite Hv. cbn [Value_Type bind].
    rewrite Zero_Interface. cbn [bind].
    rewrite iface_of_concrete by exact Hk. exact HS.
  - intros fuel Hd.
    destruct (Field_IsZero_readable h' fuel f t (Ref a) (zero_val t))
      as (b & -> & _ & Hb); auto.
    + simpl. rewrite Hl'. reflexivity.
    + apply has_shape_zero.
    + f_equal. apply Hb. reflexivity.
Qed.

(** Zero on a field that is not exported or not settable returns the
    error of Set. *)
Lemma Field_Zero_refused (h : heap) (f : Field) :
  Value_IsValid (value f) = true ->
  Field_IsExported f = false \/ Value_CanSet (value f) = false ->
  exists e, Field_Zero h f = Ret (h, Some e).
Proof.
  intros Hv Hno. unfold Field_Zero.
  destruct (value f) as [|t d s e] eqn:E; [discriminate|].
  cbn [Value_Type bind]. rewrite Zero_Interface. cbn [bind].
  unfold Field_Set. rewrite E.
  destruct (Field_IsExported f); simpl; [|eauto].
  destruct Hno as [Hno|Hno]; [discriminate|]. rewrite Hno. simpl. eauto.
Qed.

(** Zero on an exported, settable field of interface type never returns:
    the zero value it hands to Set is the nil interface value. *)
Lemma Field_Zero_interface_type (h : heap) (f : Field) (t : rtype) :
  Field_IsExported f = true -> Value_CanSet (value f) = true ->
  Value_Type (value f) = Ret t -> kind_of t = Interface ->
  Field_Zero h f = Panic (ZeroValueCall "Type").
Proof.
  intros He Hs Ht Hk. unfold Field_Zero. rewrite Ht. cbn [bind].
  rewrite Zero_Interface. cbn [bind].
  unfold iface_of. rewrite Hk, (zero_val_Interface t Hk).
  unfold Field_Set. rewrite He, Hs. reflexivity.
Qed.

(** C4, at the failing input.  The field [I interface{}] of the example
    record is exported and settable, and Zero on its descriptor does not
    return: the zero value of an interface type is the nil interface
    value, and Set panics on it. *)
Theorem C4_Zero_panics_on_interface_field :
  Field_IsExported Ex.dI = true /\
  Value_CanSet (value Ex.dI) = true /\
  Value_Interface Ex.h0 (Zero TEface) = Ret None /\
  Field_Zero Ex.h0 Ex.dI = Panic (ZeroValueCall "Type").
Proof. repeat split. Qed.

(** ** Fields: enumeration *)

(** The enumeration of the fields [fs] that follow the fields [pre] of a
    record held in storage: the descriptors of the kept fields, in order,
    each with the tag key of the enumeration and an addressable handle. *)
Lemma getFields_from_record (t : rtype) (b : addr) (s e : bool)
    (tagName : string) (fs : list StructField) :
  kind_of t = Struct ->
  forall pre, struct_fields t = (pre ++ fs)%list ->
  exists ds,
    getFields_from (Val t (Ref b) s e) tagName fs (length pre) = Ret ds /\
    map field ds = List.filter (keep tagName) fs /\
    Forall (fun d => defaultTag d = tagName) ds /\
    Forall (fun d => Value_CanAddr (value d) = true) ds.
Proof.
  intros Hk. induction fs as [|f fs IH]; intros pre Hpre; simpl.
  - exists []. repeat split; constructor.
  - destruct (IH (pre ++ [f])%list) as (ds & Hds & Hm & Ht & Ha).
    { rewrite <- app_assoc. exact Hpre. }
    rewrite length_app, Nat.add_1_r in Hds. simpl in Hds.
    unfold keep at 1.
    destruct (String.eqb (StructTag_Get (sfTag f) tagName) "-"); simpl.
    + exists ds. repeat split; assumption.
    + rewrite Hk, Hpre, list_lookup_middle by reflexivity.
      cbn [bind]. rewrite Hds. cbn [bind].
      eexists. split; [reflexivity|]. simpl. rewrite Hm.
      repeat split; constructor; auto.
Qed.

Lemma getFields_record (h : heap) (v : Value) (rt : rtype) (b : addr)
    (tagName : string) :
  record_at h v = Some (rt, b) ->
  exists ds,
    getFields h v tagName = Ret ds /\
    map field ds = List.filter (keep tagName) (struct_fields rt) /\
    Forall (fun d => defaultTag d = tagName) ds /\
    Forall (fun d => Value_CanAddr (value d) = true) ds.
Proof.
  intros Hr. unfold getFields.
  destruct v as [|t d [|] [|]]; simpl in Hr; try discriminate.
  destruct (kind_of t) eqn:Hk; try discriminate.
  - simpl. rewrite Hk. simpl.
    destruct (contents h d) as [x| |]; try discriminate.
    destruct x as [| | | |[c|]| |]; try discriminate.
    destruct (ptr_elem t) as [et|] eqn:He; try discriminate.
    destruct (Kind_eqb (kind_of et) Struct) eqn:Hs; try discriminate.
    injection Hr as -> ->. apply Kind_eqb_eq in Hs.
    simpl. unfold Type_NumField. rewrite Hs. simpl.
    apply (getFields_from_record rt b false false tagName _ Hs []).
    reflexivity.
  - destruct d as [x|a]; try discriminate. injection Hr as -> ->.
    simpl. rewrite Hk. simpl. unfold Type_NumField. rewrite Hk. simpl.
    apply (getFields_from_record rt b false false tagName _ Hk []).
    reflexivity.
Qed.

(** C6.  Let the descriptor f stand for a record in storage and let
    [name] name an immediate field [sf] of the record whose tag value
    under f's default tag key is exactly ["-"].  Then Fields returns the
    descriptors of exactly the fields not so marked, in their order, so
    none of them describes [sf]; and Field with that name still returns a
    descriptor of [sf], whose Value, the field being exported, is the
    value the record holds in that field at the moment. *)
Theorem C6_skip_marker_only_in_Fields (h : heap) (f : Field) (rt : rtype)
    (b : addr) (name : string) (i : nat) (sf : StructField) :
  record_at h (value f) = Some (rt, b) ->
  immediate_field rt name i sf ->
  StructTag_Get (sfTag sf) (defaultTag f) = "-" ->
  (exists ds,
     Field_Fields h f = Ret ds /\
     map field ds = List.filter (keep (defaultTag f)) (struct_fields rt) /\
     forall d, d ∈ ds -> field d <> sf) /\
  (exists d,
     Field_Field h f name = Ret (Some d) /\
     field d = sf /\ Field_Name d = name /\
     forall xs x,
       load h b = Some (VStruct xs) -> xs !! i = Some x ->
       has_shape x (sfType sf) = true ->
       sfPkgPath sf = "" ->
       Field_Value h d = Ret (iface_of (sfType sf) x)).
Proof.
  intros Hr Hi Hskip. split.
  - destruct (getFields_record h (value f) rt b (defaultTag f) Hr)
      as (ds & Hds & Hm & _).
    exists ds. repeat split; [exact Hds | exact Hm |].
    intros d Hd Heq.
    assert (In (field d) (map field ds)) as Hin.
    { apply in_map, list_elem_of_In, Hd. }
    rewrite Hm, filter_In, Heq in Hin. destruct Hin as [_ Hkeep].
    unfold keep in Hkeep. rewrite Hskip in Hkeep. discriminate.
  - eexists. split; [eapply Field_Field_record; eauto|].
    destruct (immediate_field_lookup _ _ _ _ Hi) as [_ Hn].
    repeat split; [exact Hn|].
    intros xs x Hl Hx Hs He.
    destruct (field_marks_exported sf He) as [-> ->].
    unfold Field_Value. cbn [value].
    apply Value_Interface_readable; [|exact Hs].
    simpl. rewrite (load_field h b i xs Hl), Hx. reflexivity.
Qed.

Lemma C6_skip_marker_only_in_Fields_witness :
  (exists ds,
     Field_Fields Ex.h0 Ex.dR = Ret ds /\
     map field ds
     = List.filter (keep "structs") (struct_fields Ex.tOuter) /\
     forall d, d ∈ ds -> field d <> Ex.sfAge) /\
  (exists d,
     Field_Field Ex.h0 Ex.dR "Age" = Ret (Some d) /\
     field d = Ex.sfAge /\ Field_Name d = "Age" /\
     Field_Value Ex.h0 d = Ret (Some (TInt, VInt 30))).
Proof.
  destruct (C6_skip_marker_only_in_Fields
              Ex.h0 Ex.dR Ex.tOuter (0, []) "Age" 1 Ex.sfAge)
    as [HF (d & Hd & Hf & Hn & HV)].
  { reflexivity. }
  { repeat split; first [reflexivity | discriminate]. }
  { reflexivity. }
  split; [exact HF|].
  exists d. repeat split; try assumption.
  apply (HV [VString "Ann"; VInt 30; Ex.inner0; Ex.inner0; VPtr None]
            (VInt 30)); reflexivity.
Defined.

(** Every descriptor that Fields returns carries the default tag key of
    the descriptor it was called on. *)
Lemma Field_Fields_defaultTag (h : heap) (f : Field) (rt : rtype) (b : addr) :
  record_at h (value f) = Some (rt, b) ->
  exists ds, Field_Fields h f = Ret ds /\
             Forall (fun d => defaultTag d = defaultTag f) ds.
Proof.
  intros Hr.
  destruct (getFields_record h (value f) rt b (defaultTag f) Hr)
    as (ds & Hds & _ & Ht & _).
  exists ds. split; assumption.
Qed.

(** Every descriptor that Field returns carries the empty tag key. *)
Lemma Field_Field_defaultTag (h : heap) (f : Field) (name : string)
    (d : Field) :
  Field_Field h f name = Ret (Some d) -> defaultTag d = "".
Proof.
  unfold Field_Field.
  destruct (if negb (Kind_eqb (Value_Kind (value f)) Ptr)
            then Value_Addr (value f) else Ret (value f)) as [v0| |];
    cbn [bind]; try discriminate.
  destruct (Value_Interface h v0) as [s| |]; cbn [bind]; try discriminate.
  destruct (structVal h s) as [v| |]; cbn [bind]; try discriminate.
  destruct (Value_Type v) as [t| |]; cbn [bind]; try discriminate.
  destruct (Type_FieldByName t name) as [[[j fld]|]| |]; cbn [bind];
    try discriminate.
  destruct (Value_FieldByName v name) as [fv| |]; cbn [bind];
    try discriminate.
  intros [= <-]. reflexivity.
Qed.

(** C7, at the failing input.  The descriptor of [H Holder] carries the
    default tag key ["structs"].  The descriptor that Field returns for
    its field [R] carries the empty key instead, and Fields on it
    enumerates [Age], which is marked ["-"] under ["structs"]; with the
    key inherited, as in the descriptors that Fields returns, [Age] is
    skipped. *)
Theorem C7_Field_drops_default_tag :
  defaultTag Ex.dH = "structs" /\
  exists d,
    Field_Field Ex.h0 Ex.dH "R" = Ret (Some d) /\
    defaultTag d = "" /\
    (exists ds, Field_Fields Ex.h0 d = Ret ds /\
                map Field_Name ds = ["Name"; "Age"; "N"; "in"; "Q"]) /\
    (exists ds, Field_Fields Ex.h0 (mkField (value d) (field d) "structs")
                = Ret ds /\
                map Field_Name ds = ["Name"; "N"; "in"; "Q"]) /\
    (exists ds, Field_Fields Ex.h0 Ex.dH = Ret ds /\
                map defaultTag ds = ["structs"]).
Proof.
  split; [reflexivity|]. eexists. split; [reflexivity|].
  split; [reflexivity|].
  repeat split; eexists; split; reflexivity.
Qed.

(** ** Descriptors built by the package *)

Lemma kind_Ptr_elem (t : rtype) :
  kind_of t = Ptr -> exists e, ptr_elem t = Some e.
Proof.
  unfold kind_of, ptr_elem. destruct (underlying t); try discriminate. eauto.
Qed.

(** The bound that [structVal] gives its loop is enough: more fuel does
    not change the outcome. *)
Lemma deref_all_fuel (h : heap) (n : nat) :
  forall (m : nat) (v : Value),
    depth_of v <= n -> n <= m -> deref_all h n v = deref_all h m v.
Proof.
  induction n as [|n IH]; intros m v Hd Hm.
  - destruct v as [|t d s e]; [destruct m; reflexivity|].
    simpl in Hd. destruct (Kind_eqb (kind_of t) Ptr) eqn:Hk.
    + apply Kind_eqb_eq in Hk. destruct (kind_Ptr_elem t Hk) as [et He].
      rewrite (ptr_depth_Ptr _ _ He) in Hd. lia.
    + rewrite !deref_all_done by exact Hk. reflexivity.
  - destruct m as [|m]; [lia|]. simpl.
    destruct (Kind_eqb (Value_Kind v) Ptr) eqn:Hk; [|reflexivity].
    destruct v as [|t d s e]; [discriminate|]. simpl in Hk, Hd.
    apply Kind_eqb_eq in Hk. destruct (kind_Ptr_elem t Hk) as [et He].
    rewrite (ptr_depth_Ptr _ _ He) in Hd.
    simpl. rewrite Hk, He.
    destruct (contents h d) as [x| |]; simpl; try reflexivity.
    destruct x as [| | | |[c|]| |]; simpl; try reflexivity;
      apply IH; simpl; lia.
Qed.

(** What the loop of [structVal] returns carries the read-only marks of
    what it was given. *)
Lemma deref_all_marks (h : heap) (n : nat) :
  forall (v w : Value),
    flagRO v = false -> deref_all h n v = Ret w -> flagRO w = false.
Proof.
  induction n as [|n IH]; intros v w Hro; simpl.
  - destruct (Kind_eqb (Value_Kind v) Ptr); [discriminate|].
    intros [= <-]. exact Hro.
  - destruct (Kind_eqb (Value_Kind v) Ptr) eqn:Hk;
      [|intros [= <-]; exact Hro].
    destruct v as [|t d s e]; [discriminate|]. simpl in Hk, Hro.
    apply orb_false_iff in Hro as [-> ->].
    apply Kind_eqb_eq in Hk. simpl. rewrite Hk.
    destruct (contents h d) as [x| |]; simpl; try discriminate.
    destruct x as [| | | |[c|]| |], (ptr_elem t); simpl; try discriminate;
      apply IH; reflexivity.
Qed.

(** Every descriptor that Field returns is consistent: its handle is
    marked read-only exactly when the field is not exported. *)
Lemma Field_Field_consistent (h : heap) (f : Field) (name : string)
    (d : Field) :
  Field_Field h f name = Ret (Some d) -> consistent d.
Proof.
  unfold Field_Field.
  destruct (if negb (Kind_eqb (Value_Kind (value f)) Ptr)
            then Value_Addr (value f) else Ret (value f)) as [v0| |];
    cbn [bind]; try discriminate.
  destruct (Value_Interface h v0) as [s| |]; cbn [bind]; try discriminate.
  unfold structVal.
  destruct (deref_all h _ (ValueOf s)) as [v| |] eqn:Hv; cbn [bind];
    try discriminate.
  apply deref_all_marks in Hv; [|destruct s as [[? ?]|]; reflexivity].
  destruct (negb (Kind_eqb (Value_Kind v) Struct)); cbn [bind];
    try discriminate.
  destruct v as [|t dd s0 e0]; cbn [Value_Type bind]; try discriminate.
  simpl in Hv. apply orb_false_iff in Hv as [-> ->].
  destruct (Type_FieldByName t name) as [[[j fld]|]| |] eqn:HT; cbn [bind];
    try discriminate.
  unfold Value_FieldByName.
  destruct (kind_of t) eqn:Hk; cbn [bind]; try discriminate.
  rewrite HT. cbn [bind]. unfold Value_Field. rewrite Hk.
  assert (struct_fields t !! j = Some fld) as Hj.
  { unfold Type_FieldByName in HT. rewrite Hk in HT.
    destruct (String.eqb name ""); [discriminate|].
    destruct (find_field (struct_fields t) name 0) as [[j' f']|] eqn:Hf.
    - injection HT as -> ->.
      destruct (find_field_lookup _ _ _ _ _ Hf) as (k & -> & Hl & _).
      exact Hl.
    - destruct (hasEmbeds (struct_fields t)); discriminate. }
  rewrite Hj.
  assert (forall dv, consistent (mkField
            (Val (sfType fld) dv
                 (false || negb (String.eqb (sfPkgPath fld) "")
                           && negb (sfAnonymous fld))
                 (negb (String.eqb (sfPkgPath fld) "") && sfAnonymous fld))
            fld "")) as Hcons.
  { intros dv. unfold consistent, Field_IsExported. simpl.
    destruct (String.eqb (sfPkgPath fld) ""), (sfAnonymous fld); reflexivity. }
  destruct dd as [[| | | | | |xs]|a]; cbn [bind]; try discriminate.
  - destruct (xs !! j); cbn [bind]; try discriminate.
    intros [= <-]. apply Hcons.
  - intros [= <-]. apply Hcons.
Qed.

(** ** Further properties of Field *)





(** X2.  Field cannot descend into a field that is not exported: on a
    handle that carries a read-only mark and is addressable or holds a
    pointer, Field panics for every name where it asks the handle for its
    value. *)
Theorem X2_Field_of_unexported_panics (h : heap) (f : Field) (name : string) :
  flagRO (value f) = true ->
  Value_Kind (value f) = Ptr \/ Value_CanAddr (value f) = true ->
  Field_Field h f name = Panic UnexportedValue.
Proof.
  intros Hro Hok. unfold Field_Field.
  destruct (value f) as [|t d s e]; [discriminate|]. simpl in Hro, Hok.
  simpl. destruct (Kind_eqb (kind_of t) Ptr) eqn:Hk; simpl.
  - rewrite Hro. reflexivity.
  - destruct Hok as [Hp|Ha].
    + rewrite Hp in Hk. discriminate.
    + destruct d as [x|a]; [discriminate|]. simpl. rewrite Hro. reflexivity.
Qed.

Lemma X2_Field_of_unexported_panics_witness :
  Field_Field Ex.h0 Ex.d_in "X" = Panic UnexportedValue.
Proof.
  apply X2_Field_of_unexported_panics; [reflexivity | right; reflexivity].
Defined.







(** ** Further properties of Value and IsZero *)

(** X4.  Value and IsZero panic when the field is not exported: on every
    handle that carries a read-only mark both end in the panic of
    [Value.Interface], whatever the storage holds. *)
Theorem X4_Value_and_IsZero_panic_on_unexported (h : heap) (fuel : nat)
    (f : Field) :
  flagRO (value f) = true ->
  Field_Value h f = Panic UnexportedValue /\
  Field_IsZero h fuel f = Panic UnexportedValue.
Proof.
  intros Hro. destruct (value f) as [|t d s e] eqn:Hv; [discriminate|].
  simpl in Hro.
  assert (Field_Value h f = Panic UnexportedValue) as HV.
  { unfold Field_Value. rewrite Hv. simpl. rewrite Hro. reflexivity. }
  split; [exact HV|].
  unfold Field_IsZero. rewrite Hv. cbn [Value_Type bind].
  rewrite Zero_Interface. cbn [bind]. rewrite HV. reflexivity.
Qed.

Lemma X4_Value_and_IsZero_panic_on_unexported_witness :
  Field_Value Ex.h0 Ex.dy = Panic UnexportedValue /\
  Field_IsZero Ex.h0 3 Ex.dy = Panic UnexportedValue.
Proof.
  apply X4_Value_and_IsZero_panic_on_unexported. reflexivity.
Defined.

(** ** Further properties of Zero *)

(** X5.  Zero never returns TypeMismatch: the zero value it hands to Set
    has the field's own type. *)
Theorem X5_Zero_never_mismatches (h h' : heap) (f : Field)
    (offered required : rtype) :
  Field_Zero h f <> Ret (h', Some (errCantAssign offered required)).
Proof.
  unfold Field_Zero.
  destruct (value f) as [|t d s e] eqn:Hv; [discriminate|].
  cbn [Value_Type bind]. rewrite Zero_Interface. cbn [bind].
  unfold Field_Set. rewrite Hv.
  destruct (negb (Field_IsExported f)); [discriminate|].
  destruct (negb (Value_CanSet (Val t d s e))); [discriminate|].
  destruct (Kind_eqb (kind_of t) Interface) eqn:Hk.
  - apply Kind_eqb_eq in Hk. unfold iface_of.
    rewrite Hk, (zero_val_Interface t Hk). discriminate.
  - rewrite iface_of_concrete by exact Hk. cbn [ValueOf Value_Type bind].
    rewrite AssignableTo_refl. cbn [negb].
    destruct (Value_Set h (Val t d s e) (Val t (Imm (zero_val t)) false false));
      discriminate.
Qed.

(** Writing to a location what it holds leaves the heap as it is, and a
    second write to a location makes the first one void. *)
Lemma set_path_same (v : val) (p : list nat) (x : val) :
  get_path v p = Some x -> set_path v p x = Some v.
Proof.
  revert v. induction p as [|i p IH]; intros v; simpl.
  - intros [= ->]. reflexivity.
  - destruct v; try discriminate.
    destruct (fs !! i) as [w|] eqn:Hi; [|discriminate].
    intros Hg. rewrite (IH _ Hg), list_insert_id by exact Hi. reflexivity.
Qed.

Lemma store_same (h : heap) (a : addr) (x : val) :
  load h a = Some x -> store h a x = Some h.
Proof.
  unfold load, store. destruct (h !! a.1) as [v|] eqn:Hl; [|discriminate].
  intros Hg. rewrite (set_path_same _ _ _ Hg), list_insert_id by exact Hl.
  reflexivity.
Qed.

Lemma set_path_twice (v v1 : val) (p : list nat) (x1 x2 : val) :
  set_path v p x1 = Some v1 -> set_path v1 p x2 = set_path v p x2.
Proof.
  revert v v1. induction p as [|i p IH]; intros v v1; simpl.
  - reflexivity.
  - destruct v; try discriminate.
    destruct (fs !! i) as [w|] eqn:Hi; [|discriminate].
    destruct (set_path w p x1) as [w1|] eqn:H1; [|discriminate].
    intros [= <-]. simpl.
    rewrite list_lookup_insert_eq by (eapply lookup_lt_Some; eauto).
    rewrite (IH _ _ H1). destruct (set_path w p x2); [|reflexivity].
    rewrite list_insert_insert_eq. reflexivity.
Qed.

Lemma store_twice (h h1 : heap) (a : addr) (x1 x2 : val) :
  store h a x1 = Some h1 -> store h1 a x2 = store h a x2.
Proof.
  unfold store. destruct (h !! a.1) as [v|] eqn:Hl; [|discriminate].
  destruct (set_path v a.2 x1) as [v1|] eqn:H1; [|discriminate].
  intros [= <-].
  rewrite list_lookup_insert_eq by (eapply lookup_lt_Some; eauto).
  rewrite (set_path_twice _ _ _ _ x2 H1).
  destruct (set_path v a.2 x2); [|reflexivity].
  rewrite list_insert_insert_eq. reflexivity.
Qed.

(** Set on an exported, settable descriptor, as a function of the
    store. *)
Lemma Field_Set_as_store (h : heap) (f : Field) (ft vt : rtype) (a : addr)
    (x : val) :
  Field_IsExported f = true ->
  value f = Val ft (Ref a) false false ->
  Kind_eqb (kind_of vt) Interface = false ->
  Type_AssignableTo vt ft = true ->
  Field_Set h f (Some (vt, x))
  = match store h a (stored_form ft vt x) with
    | Some h' => Ret (h', None)
    | None => Beyond
    end.
Proof.
  intros He Hv Hc Ha. unfold Field_Set. rewrite He, Hv. simpl.
  rewrite Ha. simpl.
  pose proof (assignTo_stored_form h vt ft x Hc Ha) as Hat. simpl in Hat.
  rewrite Hat. simpl. destruct (store h a (stored_form ft vt x)); reflexivity.
Qed.

(** X6.  On an exported, settable field whose type is not an interface
    type Zero succeeds and leaves the zero value of the type in the
    field's storage; IsZero is true afterwards, and a second Zero changes
    nothing. *)
Theorem X6_Zero_resets_the_field (h : heap) (f : Field) (t : rtype)
    (a : addr) (old : val) :
  Field_IsExported f = true ->
  value f = Val t (Ref a) false false ->
  Kind_eqb (kind_of t) Interface = false ->
  load h a = Some old ->
  exists h',
    Field_Zero h f = Ret (h', None) /\
    load h' a = Some (zero_val t) /\
    (forall fuel, val_depth (zero_val t) < fuel ->
                  Field_IsZero h' fuel f = Ret true) /\
    Field_Zero h' f = Ret (h', None).
Proof.
  intros He Hv Hk Hl.
  destruct (Field_Zero_concrete_type h f t a old He Hv Hk Hl)
    as (h' & HZ & Hl' & HI).
  exists h'. repeat split; try assumption.
  unfold Field_Zero. rewrite Hv. cbn [Value_Type bind].
  rewrite Zero_Interface. cbn [bind].
  rewrite iface_of_concrete by exact Hk.
  rewrite (Field_Set_as_store h' f t t a (zero_val t) He Hv Hk
             (AssignableTo_refl t)).
  unfold stored_form. rewrite Hk. rewrite (store_same h' a _ Hl').
  reflexivity.
Qed.

Lemma X6_Zero_resets_the_field_witness :
  exists h',
    Field_Zero Ex.h0 Ex.dN = Ret (h', None) /\
    load h' (0, [2]) = Some (zero_val Ex.tInner) /\
    (forall fuel, val_depth (zero_val Ex.tInner) < fuel ->
                  Field_IsZero h' fuel Ex.dN = Ret true) /\
    Field_Zero h' Ex.dN = Ret (h', None).
Proof.
  apply (X6_Zero_resets_the_field Ex.h0 Ex.dN Ex.tInner (0, [2]) Ex.inner0);
    reflexivity.
Defined.

(** X7.  Zero on a valid descriptor fails as Set does and in the same
    order: NotExported when the field is not exported, whatever the
    handle; otherwise NotSettable when the handle is not settable.  The
    heap is returned as it was. *)
Theorem X7_Zero_fails_as_Set (h : heap) (f : Field) :
  Value_IsValid (value f) = true ->
  (Field_IsExported f = false ->
   Field_Zero h f = Ret (h, Some errNotExported)) /\
  (Field_IsExported f = true -> Value_CanSet (value f) = false ->
   Field_Zero h f = Ret (h, Some errNotSettable)).
Proof.
  intros Hv. unfold Field_Zero.
  destruct (value f) as [|t d s e] eqn:E; [discriminate|].
  cbn [Value_Type bind]. rewrite Zero_Interface. cbn [bind].
  unfold Field_Set. rewrite E. split.
  - intros ->. reflexivity.
  - intros -> ->. reflexivity.
Qed.

Lemma X7_Zero_fails_as_Set_witness :
  Field_Zero Ex.h0 Ex.dy = Ret (Ex.h0, Some errNotExported) /\
  Field_Zero Ex.h0 Ex.dN_copy = Ret (Ex.h0, Some errNotSettable).
Proof.
  split.
  - apply (X7_Zero_fails_as_Set Ex.h0 Ex.dy); reflexivity.
  - apply (X7_Zero_fails_as_Set Ex.h0 Ex.dN_copy); reflexivity.
Defined.

(** ** Further properties of Set *)

Lemma Value_Interface_contents (h h' : heap) (t : rtype) (d : data)
    (s e : bool) :
  contents h' d = contents h d ->
  Value_Interface h' (Val t d s e) = Value_Interface h (Val t d s e).
Proof. intros Hc. simpl. rewrite Hc. reflexivity. Qed.

Lemma record_at_struct (h : heap) (rt : rtype) (b : addr) :
  kind_of rt = Struct -> record_at h (Val rt (Ref b) false false) = Some (rt, b).
Proof. intros Hk. simpl. rewrite Hk. reflexivity. Qed.

(** A write through the descriptor of the field [i] of a record. *)
Lemma Field_Set_in_record (h : heap) (b : addr) (i : nat)
    (sf : StructField) (tag : string) (xs : list val) (old : val)
    (vt : rtype) (x : val) :
  load h b = Some (VStruct xs) -> xs !! i = Some old ->
  sfPkgPath sf = "" ->
  Kind_eqb (kind_of vt) Interface = false ->
  Type_AssignableTo vt (sfType sf) = true ->
  exists h',
    Field_Set h
      (mkField (Val (sfType sf) (Ref (b.1, b.2 ++ [i])%list)
                    (field_sticky sf) (field_embed sf)) sf tag)
      (Some (vt, x)) = Ret (h', None) /\
    load h' b = Some (VStruct (<[i := stored_form (sfType sf) vt x]> xs)).
Proof.
  intros Hl Hx He Hc Ha.
  destruct (field_marks_exported sf He) as [-> ->].
  assert (set_path (VStruct xs) [i] (stored_form (sfType sf) vt x)
          = Some (VStruct (<[i := stored_form (sfType sf) vt x]> xs))) as Hq
    by (simpl; rewrite Hx; reflexivity).
  destruct (store_sub h b [i] _ _ _ Hl Hq) as (h' & Hs & Hl' & _).
  exists h'. split; [|exact Hl'].
  rewrite (Field_Set_as_store h _ (sfType sf) vt (b.1, b.2 ++ [i])%list x);
    auto.
  - rewrite Hs. reflexivity.
  - unfold Field_IsExported. simpl. rewrite He. reflexivity.
Qed.

(** X8.  Set writes one field only.  For two different fields of a record,
    each looked up by Field, a Set through the descriptor of the first
    leaves what Value returns through the descriptor of the second as it
    was. *)
Theorem X8_Set_leaves_other_fields (h : heap) (f : Field) (rt : rtype)
    (b : addr) (name1 name2 : string) (i j : nat) (sf1 sf2 : StructField)
    (xs : list val) (old : val) (vt : rtype) (x : val) :
  record_at h (value f) = Some (rt, b) ->
  immediate_field rt name1 i sf1 -> immediate_field rt name2 j sf2 ->
  i <> j ->
  load h b = Some (VStruct xs) -> xs !! i = Some old ->
  sfPkgPath sf1 = "" ->
  Kind_eqb (kind_of vt) Interface = false ->
  Type_AssignableTo vt (sfType sf1) = true ->
  exists d1 d2 h',
    Field_Field h f name1 = Ret (Some d1) /\
    Field_Field h f name2 = Ret (Some d2) /\
    Field_Set h d1 (Some (vt, x)) = Ret (h', None) /\
    Field_Value h' d2 = Field_Value h d2.
Proof.
  intros Hr H1 H2 Hij Hl Hx He Hc Ha.
  destruct (Field_Set_in_record h b i sf1 "" xs old vt x Hl Hx He Hc Ha)
    as (h' & HS & Hl').
  do 2 eexists. exists h'.
  split; [exact (Field_Field_record h f rt b name1 i sf1 Hr H1)|].
  split; [exact (Field_Field_record h f rt b name2 j sf2 Hr H2)|].
  split; [exact HS|].
  unfold Field_Value. cbn [value]. apply Value_Interface_contents. simpl.
  rewrite (load_field h' b j _ Hl'), (load_field h b j _ Hl).
  rewrite list_lookup_insert_ne by exact Hij. reflexivity.
Qed.

Lemma X8_Set_leaves_other_fields_witness :
  exists d1 d2 h',
    Field_Field Ex.h0 Ex.dR "Name" = Ret (Some d1) /\
    Field_Field Ex.h0 Ex.dR "N" = Ret (Some d2) /\
    Field_Set Ex.h0 d1 (Some (TString, VString "Bob")) = Ret (h', None) /\
    Field_Value h' d2 = Field_Value Ex.h0 d2.
Proof.
  apply (X8_Set_leaves_other_fields Ex.h0 Ex.dR Ex.tOuter (0, [])
           "Name" "N" 0 2 Ex.sfName_ Ex.sfN
           [VString "Ann"; VInt 30; Ex.inner0; Ex.inner0; VPtr None]
           (VString "Ann") TString (VString "Bob"));
    try reflexivity;
    try (repeat split; first [reflexivity | discriminate]).
Defined.

(** X9.  A Set on the descriptor of a whole record is seen through the
    descriptors of its fields: after the record is replaced, Value on the
    descriptor that Field returned for an exported field is that field of
    the new record. *)
Theorem X9_Set_of_record_seen_by_fields (h : heap) (f : Field) (rt : rtype)
    (b : addr) (name : string) (i : nat) (sf : StructField)
    (ys : list val) (y old : val) :
  Field_IsExported f = true ->
  value f = Val rt (Ref b) false false ->
  immediate_field rt name i sf -> sfPkgPath sf = "" ->
  load h b = Some old ->
  has_shape (VStruct ys) rt = true -> ys !! i = Some y ->
  exists d h',
    Field_Field h f name = Ret (Some d) /\
    Field_Set h f (Some (rt, VStruct ys)) = Ret (h', None) /\
    Field_Value h' d = Ret (iface_of (sfType sf) y).
Proof.
  intros He Hv Hi Hsf Hl Hs Hy.
  pose proof Hi as (Hk & _ & _).
  assert (Kind_eqb (kind_of rt) Interface = false) as Hc
    by (rewrite Hk; reflexivity).
  destruct (Field_Set_writes h f rt rt b (VStruct ys) old He Hv Hc
              (AssignableTo_refl rt) Hl) as (h' & HS & _ & Hl' & _).
  unfold stored_form in Hl'. rewrite Hc in Hl'.
  eexists. exists h'.
  split.
  { apply (Field_Field_record h f rt b name i sf); [|exact Hi].
    rewrite Hv. apply record_at_struct, Hk. }
  split; [exact HS|].
  destruct (field_marks_exported sf Hsf) as [-> ->].
  unfold Field_Value. cbn [value].
  apply Value_Interface_readable.
  - simpl. rewrite (load_field h' b i ys Hl'), Hy. reflexivity.
  - rewrite has_shape_underlying, (kind_Struct_underlying rt Hk) in Hs.
    apply has_shape_struct in Hs.
    destruct (immediate_field_lookup _ _ _ _ Hi) as [Hsfi _].
    exact (Forall2_lookup_lr _ _ _ _ _ _ Hs Hy Hsfi).
Qed.

Lemma X9_Set_of_record_seen_by_fields_witness :
  exists d h',
    Field_Field Ex.h0 Ex.dN "X" = Ret (Some d) /\
    Field_Set Ex.h0 Ex.dN
      (Some (Ex.tInner,
             VStruct [VInt 0; VString "t"; VFunc None; VEface None]))
    = Ret (h', None) /\
    Field_Value h' d = Ret (iface_of TInt (VInt 0)).
Proof.
  apply (X9_Set_of_record_seen_by_fields Ex.h0 Ex.dN Ex.tInner (0, [2])
           "X" 0 Ex.sfX _ (VInt 0) Ex.inner0);
    try reflexivity.
  repeat split; first [reflexivity | discriminate].
Defined.

(** X10.  The last Set wins, and a Set is idempotent: two Sets in a row
    leave the heap that the second alone would leave, and a Set repeated
    on its own result changes nothing. *)
Theorem X10_last_Set_wins (h : heap) (f : Field) (ft : rtype) (a : addr)
    (old : val) (vt1 vt2 : rtype) (x1 x2 : val) :
  Field_IsExported f = true ->
  value f = Val ft (Ref a) false false ->
  load h a = Some old ->
  Kind_eqb (kind_of vt1) Interface = false ->
  Type_AssignableTo vt1 ft = true ->
  Kind_eqb (kind_of vt2) Interface = false ->
  Type_AssignableTo vt2 ft = true ->
  exists h1 h2,
    Field_Set h f (Some (vt1, x1)) = Ret (h1, None) /\
    Field_Set h1 f (Some (vt2, x2)) = Ret (h2, None) /\
    Field_Set h f (Some (vt2, x2)) = Ret (h2, None) /\
    Field_Set h1 f (Some (vt1, x1)) = Ret (h1, None).
Proof.
  intros He Hv Hl Hc1 Ha1 Hc2 Ha2.
  destruct (store_load h a old (stored_form ft vt1 x1) Hl)
    as (h1 & Hs1 & Hl1 & _).
  destruct (store_load h a old (stored_form ft vt2 x2) Hl)
    as (h2 & Hs2 & _).
  exists h1, h2.
  rewrite !(Field_Set_as_store _ f ft _ a _ He Hv) by assumption.
  rewrite (store_twice h h1 a _ _ Hs1), Hs1, Hs2, (store_same h1 a _ Hl1).
  repeat split.
Qed.

Lemma X10_last_Set_wins_witness :
  exists h1 h2,
    Field_Set Ex.h0 Ex.dX (Some (TInt, VInt 1)) = Ret (h1, None) /\
    Field_Set h1 Ex.dX (Some (TInt, VInt 2)) = Ret (h2, None) /\
    Field_Set Ex.h0 Ex.dX (Some (TInt, VInt 2)) = Ret (h2, None) /\
    Field_Set h1 Ex.dX (Some (TInt, VInt 1)) = Ret (h1, None).
Proof.
  apply (X10_last_Set_wins Ex.h0 Ex.dX TInt (0, [2; 0]) (VInt 7));
    reflexivity.
Defined.

(** What Set stores has the layout of the field's type. *)
Lemma has_shape_stored_form (ft vt : rtype) (x : val) :
  Kind_eqb (kind_of vt) Interface = false -> has_shape x vt = true ->
  Type_AssignableTo vt ft = true ->
  has_shape (stored_form ft vt x) ft = true.
Proof.
  intros Hc Hs Ha. unfold stored_form.
  destruct (Kind_eqb (kind_of ft) Interface) eqn:Hk.
  - apply Kind_eqb_eq in Hk.
    rewrite has_shape_underlying, (kind_Interface_underlying ft Hk).
    simpl. rewrite Hc, Hs. reflexivity.
  - unfold Type_AssignableTo, implements in Ha. rewrite Hk, orb_false_r in Ha.
    unfold directlyAssignable in Ha.
    destruct (rtype_eqb ft vt) eqn:E.
    + apply rtype_eqb_eq in E. subst. exact Hs.
    + destruct ((hasName ft && hasName vt)
                || negb (Kind_eqb (kind_of ft) (kind_of vt))); [discriminate|].
      apply rtype_eqb_eq in Ha.
      rewrite has_shape_underlying, Ha, <- has_shape_underlying. exact Hs.
Qed.

(** X11.  Set keeps a record well laid out.  When a record has the layout
    of its type, a successful Set through the descriptor of one of its
    exported fields leaves a record that again has the layout of the
    type, whatever assignable value was set. *)
Theorem X11_Set_keeps_the_layout (h : heap) (f : Field) (rt : rtype)
    (b : addr) (name : string) (i : nat) (sf : StructField)
    (xs : list val) (vt : rtype) (x : val) :
  record_at h (value f) = Some (rt, b) ->
  immediate_field rt name i sf -> sfPkgPath sf = "" ->
  load h b = Some (VStruct xs) -> has_shape (VStruct xs) rt = true ->
  Kind_eqb (kind_of vt) Interface = false -> has_shape x vt = true ->
  Type_AssignableTo vt (sfType sf) = true ->
  exists d h' r,
    Field_Field h f name = Ret (Some d) /\
    Field_Set h d (Some (vt, x)) = Ret (h', None) /\
    load h' b = Some r /\ has_shape r rt = true.
Proof.
  intros Hr Hi He Hl Hs Hc Hx Ha.
  pose proof Hi as (Hk & _ & _).
  destruct (immediate_field_lookup _ _ _ _ Hi) as [Hsf _].
  rewrite has_shape_underlying, (kind_Struct_underlying rt Hk) in Hs.
  apply has_shape_struct in Hs.
  destruct (Forall2_lookup_r _ _ _ _ _ Hs Hsf) as (old & Hold & _).
  destruct (Field_Set_in_record h b i sf "" xs old vt x Hl Hold He Hc Ha)
    as (h' & HS & Hl').
  do 2 eexists. eexists.
  split; [exact (Field_Field_record h f rt b name i sf Hr Hi)|].
  split; [exact HS|]. split; [exact Hl'|].
  rewrite has_shape_underlying, (kind_Struct_underlying rt Hk).
  apply has_shape_struct.
  rewrite <- (list_insert_id (struct_fields rt) i sf Hsf).
  apply Forall2_insert; [exact Hs|].
  apply has_shape_stored_form; assumption.
Qed.

Lemma X11_Set_keeps_the_layout_witness :
  exists d h' r,
    Field_Field Ex.h0 Ex.dN "I" = Ret (Some d) /\
    Field_Set Ex.h0 d (Some (TInt, VInt 5)) = Ret (h', None) /\
    load h' (0, [2]) = Some r /\ has_shape r Ex.tInner = true.
Proof.
  apply (X11_Set_keeps_the_layout Ex.h0 Ex.dN Ex.tInner (0, [2]) "I" 3
           Ex.sfI [VInt 7; VString "s"; VFunc None; VEface None]
           TInt (VInt 5));
    try reflexivity.
  repeat split; first [reflexivity | discriminate].
Defined.

Lemma val_depth_stored_form (ft vt : rtype) (x : val) :
  val_depth (stored_form ft vt x) <= S (val_depth x).
Proof.
  unfold stored_form. destruct (Kind_eqb (kind_of ft) Interface); simpl; lia.
Qed.

(** X12.  IsZero after Set.  After a successful Set on an exported,
    settable field IsZero returns, and is true exactly when what was
    stored is the zero value of the field's type.  On a field of interface
    type it is false after every successful Set. *)
Theorem X12_IsZero_after_Set (h : heap) (f : Field) (ft vt : rtype)
    (a : addr) (old x : val) :
  Field_IsExported f = true ->
  value f = Val ft (Ref a) false false ->
  load h a = Some old ->
  Kind_eqb (kind_of vt) Interface = false -> has_shape x vt = true ->
  Type_AssignableTo vt ft = true ->
  exists h',
    Field_Set h f (Some (vt, x)) = Ret (h', None) /\
    forall fuel, S (val_depth x) < fuel ->
      exists b,
        Field_IsZero h' fuel f = Ret b /\
        (b = true <-> stored_form ft vt x = zero_val ft) /\
        (kind_of ft = Interface -> b = false).
Proof.
  intros He Hv Hl Hc Hs Ha.
  destruct (Field_Set_writes h f ft vt a x old He Hv Hc Ha Hl)
    as (h' & HS & _ & Hl' & _).
  exists h'. split; [exact HS|]. intros fuel Hfuel.
  destruct (Field_IsZero_readable h' fuel f ft (Ref a) (stored_form ft vt x))
    as (b & HZ & _ & Hb); auto.
  - simpl. rewrite Hl'. reflexivity.
  - apply has_shape_stored_form; assumption.
  - pose proof (val_depth_stored_form ft vt x). lia.
  - exists b. repeat split; try apply Hb; try assumption.
    intros Hk. destruct b; [|reflexivity].
    assert (stored_form ft vt x = zero_val ft) as Hz by (apply Hb; reflexivity).
    rewrite (zero_val_Interface ft Hk) in Hz.
    unfold stored_form in Hz. rewrite Hk in Hz. discriminate.
Qed.

Lemma X12_IsZero_after_Set_witness :
  exists h',
    Field_Set Ex.h0 Ex.dI (Some (TInt, VInt 0)) = Ret (h', None) /\
    forall fuel, S (val_depth (VInt 0)) < fuel ->
      exists b,
        Field_IsZero h' fuel Ex.dI = Ret b /\
        (b = true <-> stored_form TEface TInt (VInt 0) = zero_val TEface) /\
        (kind_of TEface = Interface -> b = false).
Proof.
  apply (X12_IsZero_after_Set Ex.h0 Ex.dI TEface TInt (0, [2; 3])
           (VEface None) (VInt 0)); reflexivity.
Defined.

(** X13.  Two types that both have a name are assignable only when they
    are the same type: on an exported, settable field whose type has a
    name and is not an interface type, Set with a value of any other
    named type returns TypeMismatch with the two types and writes
    nothing, also when both types have the same underlying type. *)
Theorem X13_Set_rejects_another_named_type (h : heap) (f : Field)
    (ft vt : rtype) (x : val) :
  Field_IsExported f = true -> Value_CanSet (value f) = true ->
  Value_Type (value f) = Ret ft ->
  Kind_eqb (kind_of ft) Interface = false ->
  hasName ft = true -> hasName vt = true -> ft <> vt ->
  Field_Set h f (Some (vt, x)) = Ret (h, Some (errCantAssign vt ft)).
Proof.
  intros He Hs Ht Hk Hn1 Hn2 Hne.
  unfold Field_Set. rewrite He, Hs. simpl. rewrite Ht. simpl.
  assert (Type_AssignableTo vt ft = false) as ->; [|reflexivity].
  unfold Type_AssignableTo, implements, directlyAssignable.
  rewrite Hk, Hn1, Hn2. simpl.
  destruct (rtype_eqb ft vt) eqn:E; [|reflexivity].
  apply rtype_eqb_eq in E. contradiction.
Qed.

Lemma X13_Set_rejects_another_named_type_witness :
  Field_Set Ex.h0 Ex.dX (Some (TNamed "MyInt" TInt, VInt 1))
  = Ret (Ex.h0, Some (errCantAssign (TNamed "MyInt" TInt) TInt)).
Proof.
  apply X13_Set_rejects_another_named_type;
    first [reflexivity | discriminate].
Defined.

(** X14.  A value of a type without a name is assignable to a field of a
    defined type with the same underlying type, and the other way round:
    Set succeeds, and Value then returns the contents under the field's
    type, not under the type of the value that was set. *)
Theorem X14_Set_accepts_the_same_underlying_type (h : heap) (f : Field)
    (ft vt : rtype) (a : addr) (old x : val) :
  Field_IsExported f = true ->
  value f = Val ft (Ref a) false false ->
  load h a = Some old ->
  Kind_eqb (kind_of vt) Interface = false ->
  hasName ft = false \/ hasName vt = false ->
  underlying ft = underlying vt ->
  exists h',
    Field_Set h f (Some (vt, x)) = Ret (h', None) /\
    Field_Value h' f = Ret (Some (ft, x)).
Proof.
  intros He Hv Hl Hc Hn Hu.
  assert (kind_of ft = kind_of vt) as Hk by (unfold kind_of; rewrite Hu; reflexivity).
  assert (Type_AssignableTo vt ft = true) as Ha.
  { unfold Type_AssignableTo, directlyAssignable.
    destruct (rtype_eqb ft vt); [reflexivity|].
    rewrite Hk, Kind_eqb_refl, Hu, rtype_eqb_refl.
    destruct Hn as [-> | ->]; simpl; [reflexivity|].
    rewrite andb_false_r. reflexivity. }
  destruct (Field_Set_writes h f ft vt a x old He Hv Hc Ha Hl)
    as (h' & HS & _ & Hl' & _).
  exists h'. split; [exact HS|].
  unfold Field_Value. rewrite Hv. simpl. rewrite Hl'. simpl.
  unfold stored_form. rewrite Hk, Hc. reflexivity.
Qed.

Lemma X14_Set_accepts_the_same_underlying_type_witness :
  exists h',
    Field_Set Ex.h0 Ex.dQ (Some (TPtr TInt, VPtr (Some (0, [1]))))
    = Ret (h', None) /\
    Field_Value h' Ex.dQ = Ret (Some (Ex.tIntP, VPtr (Some (0, [1])))).
Proof.
  apply (X14_Set_accepts_the_same_underlying_type Ex.h0 Ex.dQ Ex.tIntP
           (TPtr TInt) (0, [4]) (VPtr None)); try reflexivity.
  right. reflexivity.
Defined.

(** X15.  Field does not report a parent that holds no record as a lookup
    miss: on a readable, addressable handle whose kind is neither Struct
    nor Ptr, and on a readable handle that holds a nil pointer, it aborts
    with the panic of [structVal] for every name. *)
Theorem X15_Field_of_no_record_panics (h : heap) (f : Field) (t : rtype)
    (d : data) (name : string) :
  value f = Val t d false false ->
  (kind_of t <> Struct /\ kind_of t <> Ptr /\ Value_CanAddr (value f) = true)
  \/ (kind_of t = Ptr /\ contents h d = Ret (VPtr None)) ->
  Field_Field h f name = Panic NotStruct.
Proof.
  intros Hv [(Hs & Hp & Ha) | (Hp & Hc)]; unfold Field_Field; rewrite Hv in *.
  - simpl in Ha. destruct d as [x|a]; [discriminate|]. simpl.
    apply Kind_eqb_neq in Hp. rewrite Hp. simpl.
    unfold structVal. simpl.
    change (kind_of (TPtr t)) with Ptr. simpl.
    rewrite deref_all_done by (simpl; exact Hp). simpl.
    apply Kind_eqb_neq in Hs. rewrite Hs. reflexivity.
  - simpl. rewrite Hp. simpl. rewrite Hc. simpl. rewrite Hp. simpl.
    unfold structVal. simpl.
    destruct (kind_Ptr_elem t Hp) as [et He].
    rewrite (ptr_depth_Ptr t et He). simpl. rewrite Hp, He. simpl.
    rewrite deref_all_done by reflexivity. reflexivity.
Qed.

Lemma X15_Field_of_no_record_panics_witness :
  Field_Field Ex.h0 Ex.dX "Y" = Panic NotStruct /\
  Field_Field Ex.h0 Ex.dQ "Y" = Panic NotStruct.
Proof.
  split.
  - apply (X15_Field_of_no_record_panics Ex.h0 Ex.dX TInt (Ref (0, [2; 0])));
      [reflexivity|].
    left. repeat split; discriminate.
  - apply (X15_Field_of_no_record_panics Ex.h0 Ex.dQ Ex.tIntP (Ref (0, [4])));
      [reflexivity|].
    right. split; reflexivity.
Defined.
